(** * go-link: a byte relay between readers and writers

    Shallow embedding of [link.go] (package [link]): the one-way copy loop
    [OneWayLinkSpec], its shortcut [OneWayLink], and the two-way relay
    [TwoWayLinkSpec] with its background flow.

    Endpoints are interfaces in the source ([io.Reader], [io.Writer],
    [io.ReadWriteCloser]); here they are records of methods acting on an
    abstract world state [St], so that two endpoints may share state (a pipe,
    the two halves of a connection).  The transform is a function on byte
    sequences, as its type says; it does not touch the world.  The [for]
    loop has no bound in the source; the embedding runs it for a given
    number of iterations and says when it has not returned by then. *)

From Stdlib Require Import String.
From Stdlib Require Import ZArith List Lia Bool.
Import ListNotations.
Local Open Scope Z_scope.

(** ** Values *)

Abbreviation byte := Byte.byte.

(** Go [error] values: the two sentinels of package [io] that the code
    names, and any other error; a nil error is [None]. *)
Inductive error : Type :=
| EOF
| ErrShortWrite
| ErrOther (tag : nat).

(** [er != io.EOF] *)
Definition is_EOF (e : error) : bool :=
  match e with EOF => true | _ => false end.

(** [int64] arithmetic: two's complement wrap-around on 64 bits. *)
Definition wrap64 (z : Z) : Z := (z + 2 ^ 63) mod 2 ^ 64 - 2 ^ 63.

(** [written += int64(wn)] *)
Definition add64 (a b : Z) : Z := wrap64 (a + b).

(** A [[]byte]: the backing array from the slice's start up to its capacity,
    and the slice's length. *)
Record slice : Type := { arr : list byte; len : nat }.

Definition cap (b : slice) : nat := length (arr b).

(** [make([]byte, n)] *)
Definition make (n : nat) : slice := {| arr := repeat Byte.x00 n; len := n |}.

Definition defaultBufferSize : nat := 1024.

(** [buf[:rn]]: defined for [0 <= rn <= cap(buf)], a run-time panic
    otherwise. *)
Definition slice_to (b : slice) (rn : Z) : option (list byte) :=
  if (0 <=? rn) && (rn <=? Z.of_nat (cap b))
  then Some (firstn (Z.to_nat rn) (arr b))
  else None.

(** What a [Read(p)] leaves in [p]: the bytes it stored, from index 0, over
    the previous contents; the array keeps its size. *)
Definition store (data : list byte) (b : slice) : slice :=
  {| arr := firstn (cap b) (data ++ skipn (length data) (arr b));
     len := len b |}.

(** [type callbackFunc func([]byte) []byte] *)
Definition callbackFunc : Type := list byte -> list byte.

(** [if cb != nil { tbuf = cb(tbuf) }] *)
Definition apply_cb (cb : option callbackFunc) (chunk : list byte) : list byte :=
  match cb with
  | Some f => f chunk
  | None => chunk
  end.

(** A [context.Context], as far as the loop looks at it: whether the channel
    returned by [Done()] is closed when the [k]-th iteration consults it. *)
Record Ctx : Type := { Done : nat -> bool }.

(** How a statement completes: normally, or with an unlabeled [break]
    looking for its enclosing [for], [switch] or [select]. *)
Inductive signal : Type := Next | BreakOut.

(** [select { case <-ctx.Done(): break; default: }].  The chosen clause runs;
    a [break] inside it terminates the [select] statement itself, which is
    the innermost breakable statement, so the [select] completes normally. *)
Definition select_done (c : Ctx) (k : nat) : signal :=
  let clause := if Done c k then BreakOut else Next in
  match clause with
  | BreakOut => Next
  | Next => Next
  end.

(** [if ctx != nil { select ... }] *)
Definition check_ctx (ctx : option Ctx) (k : nat) : signal :=
  match ctx with
  | Some c => select_done c k
  | None => Next
  end.

(** ** Endpoints and the copy loop *)

Section Endpoints.
Context {St : Type}.

(** [rn, er := src.Read(buf)] *)
Record read_result : Type :=
  { r_world : St; r_data : list byte; r_n : Z; r_err : option error }.

(** [wn, ew := dst.Write(tbuf)] *)
Record write_result : Type :=
  { w_world : St; w_n : Z; w_err : option error }.

Record Reader : Type := { Read : St -> slice -> read_result }.
Record Writer : Type := { Write : St -> list byte -> write_result }.

(** [io.ReadWriteCloser] *)
Record ReadWriteCloser : Type :=
  { rwc_Read : St -> slice -> read_result;
    rwc_Write : St -> list byte -> write_result;
    rwc_Close : St -> St }.

Definition as_Reader (h : ReadWriteCloser) : Reader := {| Read := rwc_Read h |}.
Definition as_Writer (h : ReadWriteCloser) : Writer := {| Write := rwc_Write h |}.

(** The calls the loop makes on its endpoints, in order. *)
Inductive event : Type :=
| EvRead (p : slice) (data : list byte) (rn : Z) (er : option error)
| EvWrite (p : list byte) (wn : Z) (ew : option error).

(** The loop's variables: [buf], [written], the number of iterations begun,
    and the log of calls made so far. *)
Record frame : Type :=
  { buf : slice; written : Z; iter : nat; trace : list event }.

Definition init_frame (b : slice) : frame :=
  {| buf := b; written := 0; iter := 0%nat; trace := [] |}.

(** Where the loop stands after an iteration: at the loop head again,
    returned with [err], or stopped by a run-time panic. *)
Inductive status : Type :=
| Continue (f : frame)
| Return (err : option error) (f : frame)
| Panic (f : frame).

Definition frame_of (st : status) : frame :=
  match st with
  | Continue f | Return _ f | Panic f => f
  end.

(** Where an iteration stands once [Read], the cancellation check and the
    transform are done. *)
Inductive after_read : Type :=
| ARBreak (f : frame)
| ARPanic (f : frame)
| ARWrite (f : frame) (tbuf : list byte) (rn : Z) (er : option error)
| ARTail (f : frame) (er : option error).

(** [if er != nil { if er != io.EOF { err = er }; break }] *)
Definition finish (f : frame) (er : option error) : status :=
  match er with
  | Some e => Return (if is_EOF e then None else Some e) f
  | None => Continue f
  end.

(** The loop's variables once [rn, er := src.Read(buf)] has returned. *)
Definition read_into (f : frame) (r : read_result) : frame :=
  {| buf := store (r_data r) (buf f);
     written := written f;
     iter := S (iter f);
     trace := trace f ++ [EvRead (buf f) (r_data r) (r_n r) (r_err r)] |}.

(** The loop's variables once [wn, ew := dst.Write(tbuf)] has returned:
    [if wn > 0 { written += int64(wn) }]. *)
Definition wrote (f : frame) (tbuf : list byte) (w : write_result) : frame :=
  {| buf := buf f;
     written := if 0 <? w_n w then add64 (written f) (w_n w) else written f;
     iter := iter f;
     trace := trace f ++ [EvWrite tbuf (w_n w) (w_err w)] |}.

(** [if ew != nil { err = ew; break }];
    [if wn != rn { err = io.ErrShortWrite; break }]; then the read's
    error. *)
Definition write_exit (f : frame) (w : write_result) (rn : Z)
           (er : option error) : status :=
  match w_err w with
  | Some e => Return (Some e) f
  | None =>
      if negb (w_n w =? rn) then Return (Some ErrShortWrite) f
      else finish f er
  end.

Section Loop.
Variable ctx : option Ctx.
Variable src : Reader.
Variable dst : Writer.
Variable cb : option callbackFunc.

(** Lines 28-40: the read, the cancellation check, the slice and the
    transform. *)
Definition do_read (s : St) (f : frame) : St * after_read :=
  let r := Read src s (buf f) in
  let f1 := read_into f r in
  (r_world r,
   match check_ctx ctx (iter f) with
   | BreakOut => ARBreak f1
   | Next =>
       if 0 <? r_n r then
         match slice_to (buf f1) (r_n r) with
         | Some chunk => ARWrite f1 (apply_cb cb chunk) (r_n r) (r_err r)
         | None => ARPanic f1
         end
       else ARTail f1 (r_err r)
   end).

(** Lines 41-59: the write, the running total, the three exits. *)
Definition do_write (s : St) (f : frame) (tbuf : list byte) (rn : Z)
           (er : option error) : St * status :=
  let w := Write dst s tbuf in
  (w_world w, write_exit (wrote f tbuf w) w rn er).

(** One iteration of the [for] loop. *)
Definition loop_body (s : St) (f : frame) : St * status :=
  match do_read s f with
  | (s1, ARBreak f1) => (s1, Return None f1)
  | (s1, ARPanic f1) => (s1, Panic f1)
  | (s1, ARWrite f1 tbuf rn er) => do_write s1 f1 tbuf rn er
  | (s1, ARTail f1 er) => (s1, finish f1 er)
  end.

(** The loop, for at most [n] iterations. *)
Fixpoint run (n : nat) (s : St) (f : frame) : St * status :=
  match n with
  | O => (s, Continue f)
  | S n' =>
      match loop_body s f with
      | (s', Continue f') => run n' s' f'
      | done => done
      end
  end.
End Loop.

(** What a call gives back: the named results [(written, err)], with the
    world it leaves and the calls it made; or a panic. *)
Inductive outcome : Type :=
| Finished (s : St) (n : Z) (err : option error) (tr : list event)
| Crashed (s : St) (tr : list event).

(** [if buf == nil { buf = make([]byte, defaultBufferSize) }] *)
Definition buf_or_default (b : option slice) : slice :=
  match b with
  | Some b => b
  | None => make defaultBufferSize
  end.

(** [OneWayLinkSpec]; [None] when the loop is still running after [fuel]
    iterations. *)
Definition OneWayLinkSpec (fuel : nat) (ctx : option Ctx) (src : Reader)
           (dst : Writer) (b : option slice) (cb : option callbackFunc)
           (s : St) : option outcome :=
  match run ctx src dst cb fuel s (init_frame (buf_or_default b)) with
  | (s', Return err f) => Some (Finished s' (written f) err (trace f))
  | (s', Panic f) => Some (Crashed s' (trace f))
  | (_, Continue _) => None
  end.

(** [OneWayLink]: the shortcut without buffer. *)
Definition OneWayLink (fuel : nat) (ctx : option Ctx) (src : Reader)
           (dst : Writer) (cb : option callbackFunc) (s : St) : option outcome :=
  OneWayLinkSpec fuel ctx src dst None cb s.

(** The calls made in the first [n] iterations of a call of
    [OneWayLinkSpec] (fewer if it returned before), and the world then. *)
Definition log_after (n : nat) (ctx : option Ctx) (src : Reader)
           (dst : Writer) (b : option slice) (cb : option callbackFunc)
           (s : St) : list event :=
  trace (frame_of (snd (run ctx src dst cb n s (init_frame (buf_or_default b))))).

Definition world_after (n : nat) (ctx : option Ctx) (src : Reader)
           (dst : Writer) (b : option slice) (cb : option callbackFunc)
           (s : St) : St :=
  fst (run ctx src dst cb n s (init_frame (buf_or_default b))).

End Endpoints.

Arguments read_result St : clear implicits.
Arguments write_result St : clear implicits.
Arguments Reader St : clear implicits.
Arguments Writer St : clear implicits.
Arguments ReadWriteCloser St : clear implicits.
Arguments outcome St : clear implicits.

(** ** The two-way relay

    [TwoWayLinkSpec] starts a background flow (the [go func]) and runs the
    other direction in the caller's flow.  Both flows act on the same world
    and on the variables the closure captures: the named results [w1], [w2],
    [e1], [e2], the local [err] and the channel [exit].  Each step below
    makes at most one call on an endpoint or one statement on the captured
    variables; a schedule says which flow moves next. *)

Section Relay.
Context {St : Type}.

(** Where a flow stands. *)
Inductive flow_pc : Type :=
| PRead (f : frame)                       (* inside OneWayLinkSpec, at the loop head *)
| PWrite (f : frame) (tbuf : list byte) (rn : Z) (er : option error)
                                          (* inside OneWayLinkSpec, before dst.Write *)
| PAssign (w : Z) (e : option error)      (* OneWayLinkSpec returned (w, e) *)
| PTest                                   (* before [if err != nil] *)
| PClose1                                 (* before the first Close *)
| PClose2                                 (* before the second Close *)
| PSync                                   (* before [close(exit)] / [<-exit] *)
| PEnd                                    (* flow finished / function returned *)
| PPanic.                                 (* run-time panic *)

(** The variables both flows reach. *)
Record shared : Type :=
  { sh_world : St;
    sh_err : option error;
    sh_w1 : Z; sh_w2 : Z;
    sh_e1 : option error; sh_e2 : option error;
    sh_exit : bool }.

(** A configuration: the shared variables, each flow's position, and what
    each flow's call of [OneWayLinkSpec] returned, once it has. *)
Record config : Type :=
  { sh : shared;
    g_pc : flow_pc; m_pc : flow_pc;
    g_ret : option (Z * option error);
    m_ret : option (Z * option error) }.

Inductive flow : Type := Background | Caller.

Definition pc_of_status (st : status) : flow_pc :=
  match st with
  | Continue f => PRead f
  | Return e f => PAssign (written f) e
  | Panic _ => PPanic
  end.

Definition set_world (x : shared) (s : St) : shared :=
  {| sh_world := s; sh_err := sh_err x; sh_w1 := sh_w1 x; sh_w2 := sh_w2 x;
     sh_e1 := sh_e1 x; sh_e2 := sh_e2 x; sh_exit := sh_exit x |}.

(** A step of a flow inside its call of [OneWayLinkSpec]. *)
Definition copy_step (ctx : option Ctx) (src : Reader St) (dst : Writer St)
           (cb : option callbackFunc) (s : St) (pc : flow_pc) : St * flow_pc :=
  match pc with
  | PRead f =>
      match do_read ctx src cb s f with
      | (s1, ARBreak f1) => (s1, PAssign (written f1) None)
      | (s1, ARPanic _) => (s1, PPanic)
      | (s1, ARWrite f1 tbuf rn er) => (s1, PWrite f1 tbuf rn er)
      | (s1, ARTail f1 er) => (s1, pc_of_status (finish f1 er))
      end
  | PWrite f tbuf rn er =>
      let '(s2, st) := do_write dst s f tbuf rn er in (s2, pc_of_status st)
  | other => (s, other)
  end.

Definition returned (pc : flow_pc) (old : option (Z * option error))
  : option (Z * option error) :=
  match pc with
  | PAssign w e => Some (w, e)
  | _ => old
  end.

Section Flows.
Variable ctx : option Ctx.
Variables h1 h2 : ReadWriteCloser St.
Variables cb1 cb2 : option callbackFunc.

(** The background flow:
    [w1, err = OneWayLinkSpec(ctx, h1, h2, buf1, cb1)];
    [if err != nil { e1 = err }]; [h1.Close()]; [h2.Close()];
    [close(exit)]. *)
Definition step_background (c : config) : config :=
  let x := sh c in
  match g_pc c with
  | PRead _ | PWrite _ _ _ _ =>
      let '(s', pc') :=
        copy_step ctx (as_Reader h1) (as_Writer h2) cb1 (sh_world x) (g_pc c) in
      {| sh := set_world x s'; g_pc := pc'; m_pc := m_pc c;
         g_ret := returned pc' (g_ret c); m_ret := m_ret c |}
  | PAssign w e =>
      {| sh := {| sh_world := sh_world x; sh_err := e; sh_w1 := w; sh_w2 := sh_w2 x;
                  sh_e1 := sh_e1 x; sh_e2 := sh_e2 x; sh_exit := sh_exit x |};
         g_pc := PTest; m_pc := m_pc c; g_ret := g_ret c; m_ret := m_ret c |}
  | PTest =>
      {| sh := {| sh_world := sh_world x; sh_err := sh_err x;
                  sh_w1 := sh_w1 x; sh_w2 := sh_w2 x;
                  sh_e1 := match sh_err x with Some e => Some e | None => sh_e1 x end;
                  sh_e2 := sh_e2 x; sh_exit := sh_exit x |};
         g_pc := PClose1; m_pc := m_pc c; g_ret := g_ret c; m_ret := m_ret c |}
  | PClose1 =>
      {| sh := set_world x (rwc_Close h1 (sh_world x));
         g_pc := PClose2; m_pc := m_pc c; g_ret := g_ret c; m_ret := m_ret c |}
  | PClose2 =>
      {| sh := set_world x (rwc_Close h2 (sh_world x));
         g_pc := PSync; m_pc := m_pc c; g_ret := g_ret c; m_ret := m_ret c |}
  | PSync =>
      {| sh := {| sh_world := sh_world x; sh_err := sh_err x;
                  sh_w1 := sh_w1 x; sh_w2 := sh_w2 x;
                  sh_e1 := sh_e1 x; sh_e2 := sh_e2 x; sh_exit := true |};
         g_pc := PEnd; m_pc := m_pc c; g_ret := g_ret c; m_ret := m_ret c |}
  | PEnd | PPanic => c
  end.

(** The caller's flow:
    [w2, err = OneWayLinkSpec(ctx, h2, h1, buf2, cb2)];
    [if err != nil { e2 = err }]; [h2.Close()]; [h1.Close()];
    [<-exit]; [return]. *)
Definition step_caller (c : config) : config :=
  let x := sh c in
  match m_pc c with
  | PRead _ | PWrite _ _ _ _ =>
      let '(s', pc') :=
        copy_step ctx (as_Reader h2) (as_Writer h1) cb2 (sh_world x) (m_pc c) in
      {| sh := set_world x s'; g_pc := g_pc c; m_pc := pc';
         g_ret := g_ret c; m_ret := returned pc' (m_ret c) |}
  | PAssign w e =>
      {| sh := {| sh_world := sh_world x; sh_err := e; sh_w1 := sh_w1 x; sh_w2 := w;
                  sh_e1 := sh_e1 x; sh_e2 := sh_e2 x; sh_exit := sh_exit x |};
         g_pc := g_pc c; m_pc := PTest; g_ret := g_ret c; m_ret := m_ret c |}
  | PTest =>
      {| sh := {| sh_world := sh_world x; sh_err := sh_err x;
                  sh_w1 := sh_w1 x; sh_w2 := sh_w2 x;
                  sh_e1 := sh_e1 x;
                  sh_e2 := match sh_err x with Some e => Some e | None => sh_e2 x end;
                  sh_exit := sh_exit x |};
         g_pc := g_pc c; m_pc := PClose1; g_ret := g_ret c; m_ret := m_ret c |}
  | PClose1 =>
      {| sh := set_world x (rwc_Close h2 (sh_world x));
         g_pc := g_pc c; m_pc := PClose2; g_ret := g_ret c; m_ret := m_ret c |}
  | PClose2 =>
      {| sh := set_world x (rwc_Close h1 (sh_world x));
         g_pc := g_pc c; m_pc := PSync; g_ret := g_ret c; m_ret := m_ret c |}
  | PSync =>
      if sh_exit x
      then {| sh := x; g_pc := g_pc c; m_pc := PEnd;
              g_ret := g_ret c; m_ret := m_ret c |}
      else c
  | PEnd | PPanic => c
  end.

Definition is_panic (pc : flow_pc) : bool :=
  match pc with PPanic => true | _ => false end.

(** One step of the program: the scheduled flow moves, unless a panic
    in either flow has already stopped the process. *)
Definition step (who : flow) (c : config) : config :=
  if is_panic (g_pc c) || is_panic (m_pc c) then c
  else match who with
       | Background => step_background c
       | Caller => step_caller c
       end.

Fixpoint exec (sched : list flow) (c : config) : config :=
  match sched with
  | [] => c
  | who :: rest => exec rest (step who c)
  end.

Definition start (buf1 buf2 : option slice) (s : St) : config :=
  {| sh := {| sh_world := s; sh_err := None; sh_w1 := 0; sh_w2 := 0;
              sh_e1 := None; sh_e2 := None; sh_exit := false |};
     g_pc := PRead (init_frame (buf_or_default buf1));
     m_pc := PRead (init_frame (buf_or_default buf2));
     g_ret := None; m_ret := None |}.

(** The quadruple [(w1, w2, e1, e2)] at [return]. *)
Definition results (c : config) : option (Z * Z * option error * option error) :=
  match m_pc c with
  | PEnd => Some (sh_w1 (sh c), sh_w2 (sh c), sh_e1 (sh c), sh_e2 (sh c))
  | _ => None
  end.

End Flows.

(** [TwoWayLinkSpec] under a schedule; [None] when the caller's flow has
    not returned by the end of the schedule. *)
Definition TwoWayLinkSpec (sched : list flow) (ctx : option Ctx)
           (h1 h2 : ReadWriteCloser St) (buf1 buf2 : option slice)
           (cb1 cb2 : option callbackFunc) (s : St)
  : option (Z * Z * option error * option error) :=
  results (exec ctx h1 h2 cb1 cb2 sched (start buf1 buf2 s)).

(** [TwoWayLink]: the shortcut without buffers. *)
Definition TwoWayLink (sched : list flow) (ctx : option Ctx)
           (h1 h2 : ReadWriteCloser St) (cb1 cb2 : option callbackFunc) (s : St)
  : option (Z * Z * option error * option error) :=
  TwoWayLinkSpec sched ctx h1 h2 None None cb1 cb2 s.

(** The flow is inside its call of [OneWayLinkSpec]. *)
Definition copying (pc : flow_pc) : Prop :=
  match pc with PRead _ | PWrite _ _ _ _ => True | _ => False end.

(** A flow past its call of [OneWayLinkSpec] has stored the call's byte
    count in its own result variable. *)
Definition settled (pc : flow_pc) (ret : option (Z * option error)) (w : Z) : Prop :=
  match pc with
  | PRead _ | PWrite _ _ _ _ | PPanic => True
  | PAssign w' e => ret = Some (w', e)
  | PTest | PClose1 | PClose2 | PSync | PEnd => exists e, ret = Some (w, e)
  end.

(** [exit] is closed only by the background flow's last step, and the
    caller returns only after receiving from it. *)
Definition coherent (c : config) : Prop :=
  settled (g_pc c) (g_ret c) (sh_w1 (sh c))
  /\ settled (m_pc c) (m_ret c) (sh_w2 (sh c))
  /\ (sh_exit (sh c) = true -> g_pc c = PEnd)
  /\ (m_pc c = PEnd -> sh_exit (sh c) = true).

End Relay.

Arguments shared St : clear implicits.
Arguments config St : clear implicits.

(** ** A concrete pair of endpoints

    Two in-memory duplex endpoints, used to run the code on inputs.  An
    endpoint delivers its pending [input] on [Read] and end-of-input once it
    is drained (like [bytes.Reader]); it appends what [Write] accepts to its
    [output]; [Close] marks it closed, after which both calls fail.  A
    [broken] endpoint refuses writes (the peer is gone); [room] is the space
    left in a bounded endpoint, which takes what fits and reports an error
    for the rest; a [limit] bounds what one [Write] takes, without an error;
    with [eof_with_data] the read that drains the input reports end-of-input
    together with its bytes. *)

Module Conn.

Record end_state : Type :=
  { input : list byte;
    output : list byte;
    closed : bool;
    broken : bool;
    room : option nat;
    limit : option nat;
    eof_with_data : bool }.

Record world : Type := { end1 : end_state; end2 : end_state }.

Definition ErrClosed : error := ErrOther 1.
Definition ErrFull : error := ErrOther 28.
Definition ErrBroken : error := ErrOther 32.

Definition fresh (data : list byte) : end_state :=
  {| input := data; output := []; closed := false; broken := false;
     room := None; limit := None; eof_with_data := false |}.

Definition read_end (e : end_state) (p : slice)
  : end_state * (list byte * Z * option error) :=
  if closed e then (e, ([], 0, Some ErrClosed))
  else
    match input e with
    | [] => (e, ([], 0, Some EOF))
    | _ =>
        let n := Nat.min (len p) (length (input e)) in
        let rest := skipn n (input e) in
        ({| input := rest; output := output e; closed := closed e;
            broken := broken e; room := room e; limit := limit e;
            eof_with_data := eof_with_data e |},
         (firstn n (input e), Z.of_nat n,
          match rest with
          | [] => if eof_with_data e then Some EOF else None
          | _ => None
          end))
    end.

(** The endpoint after taking the first [n] bytes of [p]. *)
Definition take (e : end_state) (n : nat) (p : list byte) : end_state :=
  {| input := input e; output := output e ++ firstn n p; closed := closed e;
     broken := broken e;
     room := match room e with Some k => Some (k - n)%nat | None => None end;
     limit := limit e; eof_with_data := eof_with_data e |}.

Definition write_end (e : end_state) (p : list byte)
  : end_state * (Z * option error) :=
  if closed e then (e, (0, Some ErrClosed))
  else if broken e then (e, (0, Some ErrBroken))
  else
    let n := match limit e with
             | Some k => Nat.min k (length p)
             | None => length p
             end in
    match room e with
    | Some k =>
        if (k <? n)%nat then (take e k p, (Z.of_nat k, Some ErrFull))
        else (take e n p, (Z.of_nat n, None))
    | None => (take e n p, (Z.of_nat n, None))
    end.

Definition close_end (e : end_state) : end_state :=
  {| input := input e; output := output e; closed := true;
     broken := broken e; room := room e; limit := limit e;
     eof_with_data := eof_with_data e |}.

Definition h1 : ReadWriteCloser world :=
  {| rwc_Read := fun s p =>
       let '(e, (d, n, er)) := read_end (end1 s) p in
       {| r_world := {| end1 := e; end2 := end2 s |};
          r_data := d; r_n := n; r_err := er |};
     rwc_Write := fun s p =>
       let '(e, (n, ew)) := write_end (end1 s) p in
       {| w_world := {| end1 := e; end2 := end2 s |}; w_n := n; w_err := ew |};
     rwc_Close := fun s => {| end1 := close_end (end1 s); end2 := end2 s |} |}.

Definition h2 : ReadWriteCloser world :=
  {| rwc_Read := fun s p =>
       let '(e, (d, n, er)) := read_end (end2 s) p in
       {| r_world := {| end1 := end1 s; end2 := e |};
          r_data := d; r_n := n; r_err := er |};
     rwc_Write := fun s p =>
       let '(e, (n, ew)) := write_end (end2 s) p in
       {| w_world := {| end1 := end1 s; end2 := e |}; w_n := n; w_err := ew |};
     rwc_Close := fun s => {| end1 := end1 s; end2 := close_end (end2 s) |} |}.

(** The source side of [h1] and the destination side of [h2]. *)
Definition src : Reader world := as_Reader h1.
Definition dst : Writer world := as_Writer h2.

(** A transform that changes length: every byte twice. *)
Definition double : callbackFunc := flat_map (fun b => [b; b]).

Definition bytes (s : String.string) : list byte := String.list_byte_of_string s.

(** [h1] has [data] pending, [h2] is an empty open endpoint. *)
Definition feeding (data : list byte) : world :=
  {| end1 := fresh data; end2 := fresh [] |}.

(** The same, [h2] having room for [k] bytes only. *)
Definition feeding_bounded (data : list byte) (k : nat) : world :=
  {| end1 := fresh data;
     end2 := {| input := []; output := []; closed := false; broken := false;
                room := Some k; limit := None; eof_with_data := false |} |}.

(** The same, [h2] taking at most [k] bytes per [Write] and reporting no
    error. *)
Definition feeding_limited (data : list byte) (k : nat) : world :=
  {| end1 := fresh data;
     end2 := {| input := []; output := []; closed := false; broken := false;
                room := None; limit := Some k; eof_with_data := false |} |}.

(** [h1] reports end-of-input together with its last bytes; [h2] refuses
    writes. *)
Definition last_chunk_to_broken (data : list byte) : world :=
  {| end1 := {| input := data; output := []; closed := false; broken := false;
                room := None; limit := None; eof_with_data := true |};
     end2 := {| input := []; output := []; closed := false; broken := true;
                room := None; limit := None; eof_with_data := false |} |}.

(** [h1] reports end-of-input together with its last bytes; [h2] takes
    everything. *)
Definition last_chunk (data : list byte) : world :=
  {| end1 := {| input := data; output := []; closed := false; broken := false;
                room := None; limit := None; eof_with_data := true |};
     end2 := fresh [] |}.

(** A connection whose peer is gone: [h1] has nothing more to deliver and
    refuses writes, while [h2] still has [data] to send to it. *)
Definition peer_gone (data : list byte) : world :=
  {| end1 := {| input := []; output := []; closed := false; broken := true;
                room := None; limit := None; eof_with_data := false |};
     end2 := fresh data |}.

(** What matters of a world for the open/closed state of its endpoints. *)
Definition closed_flags (s : world) : bool * bool :=
  (closed (end1 s), closed (end2 s)).



(** The calls of a copy of "hello world" through a 4-byte buffer, up to
    the [Write] of the second chunk. *)
Definition hello_log : list event :=
  [EvRead (make 4) (bytes "hell") 4 None;
   EvWrite (bytes "hell") 4 None;
   EvRead {| arr := bytes "hell"; len := 4 |} (bytes "o wo") 4 None].

(** Schedules of the two flows of a relay. *)
Definition caller_assigns_first : list flow :=
  [Caller; Caller; Caller; Background; Background; Caller]
  ++ [Caller; Caller; Background; Background; Background; Background; Caller; Caller].

Definition background_tests_late : list flow :=
  [Background; Background; Caller; Caller; Caller; Background]
  ++ [Caller; Caller; Caller; Background; Background; Background; Caller; Caller].

Definition test_follows_assignment : list flow :=
  [Background; Background; Background; Caller; Caller; Caller]
  ++ [Caller; Caller; Caller; Background; Background; Background; Caller; Caller].

End Conn.

(** ** Reading a log of calls *)

Section Logs.
Context {St : Type}.

(** Bytes the [Write] calls reported as written, as the code counts them
    ([if wn > 0 { written += int64(wn) }]), before wrap-around. *)
Fixpoint total_written (tr : list event) : Z :=
  match tr with
  | [] => 0
  | EvWrite _ wn _ :: tr' => Z.max 0 wn + total_written tr'
  | EvRead _ _ _ _ :: tr' => total_written tr'
  end.



(** The chunks offered to [Write], one per call. *)
Fixpoint chunks_offered (tr : list event) : list (list byte) :=
  match tr with
  | [] => []
  | EvWrite p _ _ :: tr' => p :: chunks_offered tr'
  | EvRead _ _ _ _ :: tr' => chunks_offered tr'
  end.

(** No call in the log reported an error. *)
Definition quiet_event (ev : event) : Prop :=
  match ev with
  | EvRead _ _ _ er => er = None
  | EvWrite _ _ ew => ew = None
  end.

Definition quiet (tr : list event) : Prop := Forall quiet_event tr.

(** Every [Read] of the log was handed the buffer as the previous [Read]
    left it, starting from [b]. *)
Fixpoint reads_reuse (b : slice) (tr : list event) : Prop :=
  match tr with
  | [] => True
  | EvRead p data _ _ :: tr' => p = b /\ reads_reuse (store data b) tr'
  | EvWrite _ _ _ :: tr' => reads_reuse b tr'
  end.

(** The buffer after the calls of a log: each [Read] stores into it. *)
Fixpoint buf_after (b : slice) (tr : list event) : slice :=
  match tr with
  | [] => b
  | EvRead _ data _ _ :: tr' => buf_after (store data b) tr'
  | EvWrite _ _ _ :: tr' => buf_after b tr'
  end.


(** The world after the calls of a log, made in order on [src] and [dst]
    from world [s]. *)
Definition replay (src : Reader St) (dst : Writer St) (tr : list event) (s : St) : St :=
  fold_left (fun s ev => match ev with
                         | EvRead p _ _ _ => r_world (Read src s p)
                         | EvWrite p _ _ => w_world (Write dst s p)
                         end) tr s.

Definition world_of (o : outcome St) : St :=
  match o with Finished s _ _ _ | Crashed s _ => s end.

Definition log_of (o : outcome St) : list event :=
  match o with Finished _ _ _ tr | Crashed _ tr => tr end.

(** The running total agrees with the log. *)
Definition accounted (f : frame) : Prop :=
  written f = wrap64 (total_written (trace f)).

(** The run is over: returned or panicked. *)
Definition stopped (st : status) : Prop :=
  match st with Continue _ => False | _ => True end.

End Logs.

(** ** Further vocabulary *)

Section MoreLogs.
Context {St : Type}.

(** The chunks the [Read] calls delivered and the loop could slice
    ([0 < rn <= cap(buf)]), one per such call. *)
Fixpoint chunks_read (tr : list event) : list (list byte) :=
  match tr with
  | [] => []
  | EvRead p data rn _ :: tr' =>
      if (0 <? rn) && (rn <=? Z.of_nat (cap p))
      then firstn (Z.to_nat rn) (arr (store data p)) :: chunks_read tr'
      else chunks_read tr'
  | EvWrite _ _ _ :: tr' => chunks_read tr'
  end.

(** Bytes the [Read] calls reported, counting as the loop does (a count
    that is not positive is no data), before wrap-around. *)
Fixpoint total_read (tr : list event) : Z :=
  match tr with
  | [] => 0
  | EvRead _ _ rn _ :: tr' => Z.max 0 rn + total_read tr'
  | EvWrite _ _ _ :: tr' => total_read tr'
  end.

(** The [Read] event of the iteration that starts in world [s] with
    variables [f]. *)
Definition read_event (src : Reader St) (s : St) (f : frame) : event :=
  EvRead (buf f) (r_data (Read src s (buf f))) (r_n (Read src s (buf f)))
         (r_err (Read src s (buf f))).
End MoreLogs.

(** ** Endpoints that misbehave *)
Module Odd.

(** A source that reports one byte more than the capacity of the slice it
    is given. *)
Definition overrun : Reader unit :=
  {| Read := fun s p =>
       {| r_world := s; r_data := []; r_n := Z.of_nat (cap p) + 1; r_err := None |} |}.

(** A source that delivers two bytes together with an error that is not
    end-of-input. *)
Definition ErrReset : error := ErrOther 104.

Definition failing : Reader unit :=
  {| Read := fun s p =>
       {| r_world := s; r_data := Conn.bytes "ab"; r_n := 2; r_err := Some ErrReset |} |}.

(** A destination that takes everything and keeps nothing. *)
Definition discard : Writer unit :=
  {| Write := fun s p =>
       {| w_world := s; w_n := Z.of_nat (length p); w_err := None |} |}.

End Odd.

Section MoreRelay.
Context {St : Type}.

(** The flow has made its first [Close] call. *)
Definition closing (pc : flow_pc) : bool :=
  match pc with
  | PClose2 | PSync | PEnd => true
  | _ => false
  end.

(** The flow has made both its [Close] calls. *)
Definition closed_both (pc : flow_pc) : bool :=
  match pc with
  | PSync | PEnd => true
  | _ => false
  end.



(** A property of the world that no call on either endpoint undoes. *)
Definition lasting (h1 h2 : ReadWriteCloser St) (P : St -> Prop) : Prop :=
  (forall s p, P s -> P (r_world (rwc_Read h1 s p)))
  /\ (forall s p, P s -> P (r_world (rwc_Read h2 s p)))
  /\ (forall s p, P s -> P (w_world (rwc_Write h1 s p)))
  /\ (forall s p, P s -> P (w_world (rwc_Write h2 s p)))
  /\ (forall s, P s -> P (rwc_Close h1 s))
  /\ (forall s, P s -> P (rwc_Close h2 s)).
End MoreRelay.

(** ** More runs of the concrete endpoints *)
Module Runs.

(** [h1] is closed before the copy starts. *)
Definition source_closed : Conn.world :=
  {| Conn.end1 := Conn.close_end (Conn.fresh []); Conn.end2 := Conn.fresh [] |}.

(** "hello world" into an endpoint with room for 6 bytes, and the calls of
    that copy through a 4-byte buffer. *)
Definition bounded : Conn.world := Conn.feeding_bounded (Conn.bytes "hello world") 6.

Definition bounded_log : list event :=
  Conn.hello_log ++ [EvWrite (Conn.bytes "o wo") 2 (Some Conn.ErrFull)].

(** The calls of a copy of "abc" through a 4-byte buffer. *)
Definition abc_log : list event :=
  [EvRead (make 4) (Conn.bytes "abc") 3 None;
   EvWrite (Conn.bytes "abc") 3 None;
   EvRead {| arr := Conn.bytes "abc" ++ [Byte.x00]; len := 4 |} [] 0 (Some EOF)].

(** Worlds in which [h1] is open and has something to deliver. *)
Definition ready (s : Conn.world) : Prop :=
  Conn.closed (Conn.end1 s) = false /\ Conn.input (Conn.end1 s) <> [].

Definition closed1 (s : Conn.world) : Prop := Conn.closed (Conn.end1 s) = true.
Definition closed2 (s : Conn.world) : Prop := Conn.closed (Conn.end2 s) = true.

End Runs.

(** * Properties *)

(** ** Arithmetic and lists *)

Lemma wrap64_add_l (a b : Z) : wrap64 (wrap64 a + b) = wrap64 (a + b).
Proof.
  unfold wrap64. f_equal.
  replace ((a + 2 ^ 63) mod 2 ^ 64 - 2 ^ 63 + b + 2 ^ 63)
    with ((a + 2 ^ 63) mod 2 ^ 64 + b) by ring.
  rewrite Zplus_mod_idemp_l. f_equal. ring.
Qed.


Lemma cap_store (data : list byte) (b : slice) : cap (store data b) = cap b.
Proof.
  unfold cap, store; simpl. fold (cap b).
  rewrite length_firstn, length_app, length_skipn. unfold cap. lia.
Qed.

Lemma cap_make (n : nat) : cap (make n) = n.
Proof. unfold cap, make; simpl. apply repeat_length. Qed.

Lemma total_written_app (a b : list event) :
  total_written (a ++ b) = total_written a + total_written b.
Proof.
  induction a as [|[p d rn er|p wn ew] a IH]; simpl; lia.
Qed.

Lemma reads_reuse_app (a c : list event) :
  forall b, reads_reuse b a -> reads_reuse (buf_after b a) c -> reads_reuse b (a ++ c).
Proof.
  induction a as [|[p d rn er|p wn ew] a IH]; simpl; intros b Ha Hc; auto.
  destruct Ha as [-> Ha]. auto.
Qed.

Lemma buf_after_app (a c : list event) :
  forall b, buf_after b (a ++ c) = buf_after (buf_after b a) c.
Proof.
  induction a as [|[p d rn er|p wn ew] a IH]; simpl; intros b; auto.
Qed.

(** An event that cannot be in [tr0] lies in what follows [tr0]. *)
Lemma split_after (P : event -> Prop) (tr0 : list event) :
  Forall P tr0 ->
  forall pre ev post evs,
    ~ P ev ->
    pre ++ ev :: post = tr0 ++ evs ->
    exists a, pre = tr0 ++ a /\ evs = a ++ ev :: post.
Proof.
  induction 1 as [|x t Hx Ht IH]; intros pre ev post evs Hev Heq.
  - exists pre. auto.
  - destruct pre as [|y pre]; simpl in Heq; inversion Heq; subst.
    + contradiction.
    + destruct (IH pre ev post evs Hev H1) as [a [-> ->]].
      exists a. auto.
Qed.

(** ** The cancellation check *)

Lemma select_done_Next (c : Ctx) (k : nat) : select_done c k = Next.
Proof. unfold select_done. destruct (Done c k); reflexivity. Qed.

Lemma check_ctx_Next (ctx : option Ctx) (k : nat) : check_ctx ctx k = Next.
Proof. destruct ctx; simpl; auto using select_done_Next. Qed.

Section CopyLoop.
Context {St : Type}.
Variable ctx : option Ctx.
Variable src : Reader St.
Variable dst : Writer St.
Variable cb : option callbackFunc.

Lemma do_read_any_ctx (ctx' : option Ctx) (s : St) (f : frame) :
  do_read ctx src cb s f = do_read ctx' src cb s f.
Proof. unfold do_read. rewrite !check_ctx_Next. reflexivity. Qed.

Lemma loop_body_any_ctx (ctx' : option Ctx) (s : St) (f : frame) :
  loop_body ctx src dst cb s f = loop_body ctx' src dst cb s f.
Proof. unfold loop_body. rewrite (do_read_any_ctx ctx'). reflexivity. Qed.

Lemma run_any_ctx (ctx' : option Ctx) (n : nat) :
  forall s f, run ctx src dst cb n s f = run ctx' src dst cb n s f.
Proof.
  induction n as [|n IH]; intros s f; simpl; [reflexivity|].
  rewrite (loop_body_any_ctx ctx').
  destruct (loop_body ctx' src dst cb s f) as [s' [f'| |]]; auto.
Qed.
End CopyLoop.

(** C3. The per-iteration cancellation check never ends the loop:
    [OneWayLinkSpec] gives the same result (byte count, error, calls made,
    or the same absence of a result after the same number of iterations)
    whatever the cancellation signal is - absent, never fired, or fired at
    any iteration. *)
Theorem cancellation_has_no_effect :
  forall (St : Type) (fuel : nat) (ctx ctx' : option Ctx) (src : Reader St)
         (dst : Writer St) (b : option slice) (cb : option callbackFunc) (s : St),
    OneWayLinkSpec fuel ctx src dst b cb s = OneWayLinkSpec fuel ctx' src dst b cb s.
Proof.
  intros. unfold OneWayLinkSpec. rewrite (run_any_ctx ctx src dst cb ctx'). reflexivity.
Qed.

(** ** One iteration, and how a run decomposes *)

Section Iterations.
Context {St : Type}.
Variable ctx : option Ctx.
Variable src : Reader St.
Variable dst : Writer St.
Variable cb : option callbackFunc.

Local Abbreviation loop_body := (loop_body ctx src dst cb).
Local Abbreviation run := (run ctx src dst cb).

(** The three shapes of an iteration: nothing read and no write; a panic
    on [buf[:rn]]; a read followed by a write. *)
Lemma loop_body_cases (s : St) (f : frame) :
  let r := Read src s (buf f) in
  let f1 := read_into f r in
  (r_n r <= 0 /\ loop_body s f = (r_world r, finish f1 (r_err r)))
  \/ (Z.of_nat (cap (buf f)) < r_n r /\ loop_body s f = (r_world r, Panic f1))
  \/ (0 < r_n r <= Z.of_nat (cap (buf f)) /\
      let tbuf := apply_cb cb (firstn (Z.to_nat (r_n r)) (arr (buf f1))) in
      let w := Write dst (r_world r) tbuf in
      loop_body s f = (w_world w, write_exit (wrote f1 tbuf w) w (r_n r) (r_err r))).
Proof.
  intros r f1. unfold loop_body, do_read, do_write.
  rewrite check_ctx_Next. fold r. fold f1.
  destruct (0 <? r_n r) eqn:Hpos.
  - apply Z.ltb_lt in Hpos. unfold slice_to.
    assert (Hcap : cap (buf f1) = cap (buf f)) by apply cap_store.
    rewrite Hcap.
    destruct (r_n r <=? Z.of_nat (cap (buf f))) eqn:Hle.
    + apply Z.leb_le in Hle.
      replace (0 <=? r_n r) with true by (symmetry; apply Z.leb_le; lia).
      simpl. right. right. split; [lia | reflexivity].
    + apply Z.leb_gt in Hle.
      rewrite andb_false_r. right. left. split; [lia | reflexivity].
  - apply Z.ltb_ge in Hpos. left. split; [lia | reflexivity].
Qed.

(** Every iteration appends to the log and keeps the buffer's shape. *)
Lemma loop_body_extends (s s' : St) (f : frame) (st : status) :
  loop_body s f = (s', st) ->
  exists evs, trace (frame_of st) = trace f ++ evs
              /\ s' = replay src dst evs s
              /\ len (buf (frame_of st)) = len (buf f)
              /\ cap (buf (frame_of st)) = cap (buf f)
              /\ reads_reuse (buf f) evs
              /\ buf (frame_of st) = buf_after (buf f) evs.
Proof.
  intros H.
  destruct (loop_body_cases s f) as [[_ E]|[[_ E]|[_ E]]];
    rewrite E in H; clear E; inversion H; subst; clear H.
  - unfold finish. destruct (r_err (Read src s (buf f))); simpl;
      (eexists; split; [reflexivity|]); simpl; rewrite ?cap_store; auto 10.
  - simpl. eexists; split; [reflexivity|]. simpl. rewrite cap_store. auto 10.
  - unfold write_exit, finish.
    set (w := Write dst _ _).
    destruct (w_err w); [|destruct (negb _); [|destruct (r_err _)]];
      simpl; rewrite <- app_assoc;
      (eexists; split; [reflexivity|]); simpl; rewrite ?cap_store; auto 10.
Qed.

(** The running total follows the log through an iteration. *)
Lemma loop_body_accounted (s s' : St) (f : frame) (st : status) :
  accounted f -> loop_body s f = (s', st) -> accounted (frame_of st).
Proof.
  unfold accounted. intros Hf H.
  destruct (loop_body_cases s f) as [[_ E]|[[_ E]|[_ E]]];
    rewrite E in H; clear E; inversion H; subst; clear H.
  - unfold finish. destruct (r_err _); simpl;
      rewrite total_written_app; simpl; rewrite Hf; f_equal; lia.
  - simpl. rewrite total_written_app; simpl. rewrite Hf; f_equal; lia.
  - set (w := Write dst _ _).
    assert (G : written (wrote (read_into f (Read src s (buf f)))
                   (apply_cb cb (firstn (Z.to_nat (r_n (Read src s (buf f))))
                                   (arr (buf (read_into f (Read src s (buf f))))))) w)
                = wrap64 (total_written
                   (trace (wrote (read_into f (Read src s (buf f)))
                      (apply_cb cb (firstn (Z.to_nat (r_n (Read src s (buf f))))
                                      (arr (buf (read_into f (Read src s (buf f))))))) w)))).
    { simpl. rewrite !total_written_app. simpl. rewrite Hf.
      destruct (0 <? w_n w) eqn:Hw.
      - apply Z.ltb_lt in Hw. unfold add64. rewrite wrap64_add_l. f_equal. lia.
      - apply Z.ltb_ge in Hw. f_equal. lia. }
    unfold write_exit, finish.
    destruct (w_err w); [|destruct (negb _); [|destruct (r_err _)]]; exact G.
Qed.

(** An iteration that comes back to the loop head saw no error. *)
Lemma loop_body_quiet (s s' : St) (f f' : frame) :
  quiet (trace f) -> loop_body s f = (s', Continue f') -> quiet (trace f').
Proof.
  unfold quiet. intros Hq H.
  destruct (loop_body_cases s f) as [[_ E]|[[_ E]|[_ E]]];
    rewrite E in H; clear E.
  - unfold finish in H. destruct (r_err _) eqn:Her; inversion H; subst.
    simpl. apply Forall_app. split; [assumption|].
    repeat constructor; simpl; assumption.
  - inversion H.
  - unfold write_exit, finish in H. cbv zeta in H.
    set (w := Write dst _ _) in *.
    destruct (w_err w) eqn:Hew; [inversion H|].
    destruct (negb _); [inversion H|].
    destruct (r_err _) eqn:Her; inversion H; subst.
    simpl. repeat (apply Forall_app; split; [try assumption|]);
      repeat constructor; simpl; assumption.
Qed.

(** A run that is back at the loop head has a quiet, accounted log. *)
Lemma run_Continue (n : nat) :
  forall s f s' f',
    quiet (trace f) -> accounted f ->
    run n s f = (s', Continue f') ->
    quiet (trace f') /\ accounted f'.
Proof.
  induction n as [|n IH]; intros s f s' f' Hq Ha H; simpl in H.
  - inversion H; subst; auto.
  - destruct (loop_body s f) as [s1 [f1|e f1|f1]] eqn:E; try discriminate.
    eapply IH; [| |exact H].
    + eapply loop_body_quiet; eauto.
    + apply (loop_body_accounted s s1 f (Continue f1)); auto.
Qed.

(** A run that has stopped did so in some last iteration, begun at the
    loop head. *)
Lemma run_last (n : nat) :
  forall s f s' st,
    run n s f = (s', st) -> stopped st ->
    exists k s0 f0, (k < n)%nat /\ run k s f = (s0, Continue f0)
                    /\ loop_body s0 f0 = (s', st).
Proof.
  induction n as [|n IH]; intros s f s' st H Hst; simpl in H.
  - inversion H; subst. contradiction.
  - destruct (loop_body s f) as [s1 [f1|e f1|f1]] eqn:E.
    + destruct (IH _ _ _ _ H Hst) as (k & s0 & f0 & Hk & Hr & Hb).
      exists (S k), s0, f0. simpl. rewrite E. repeat split; auto. lia.
    + inversion H; subst. exists 0%nat, s, f. repeat split; auto. lia.
    + inversion H; subst. exists 0%nat, s, f. repeat split; auto. lia.
Qed.

(** Once stopped, more iterations change nothing. *)
Lemma run_stable (n : nat) :
  forall s f s' st,
    run n s f = (s', st) -> stopped st ->
    forall m, (n <= m)%nat -> run m s f = (s', st).
Proof.
  induction n as [|n IH]; intros s f s' st H Hst m Hm; simpl in H.
  - inversion H; subst. contradiction.
  - destruct m as [|m]; [lia|]. simpl.
    destruct (loop_body s f) as [s1 [f1|e f1|f1]] eqn:E; auto.
    eapply IH; eauto. lia.
Qed.

(** What a whole run adds to the log, and what it does to the world and to
    the buffer. *)
Lemma run_extends (n : nat) :
  forall s f s' st,
    run n s f = (s', st) ->
    exists evs, trace (frame_of st) = trace f ++ evs
                /\ s' = replay src dst evs s
                /\ len (buf (frame_of st)) = len (buf f)
                /\ cap (buf (frame_of st)) = cap (buf f)
                /\ reads_reuse (buf f) evs
                /\ buf (frame_of st) = buf_after (buf f) evs.
Proof.
  induction n as [|n IH]; intros s f s' st H; simpl in H.
  - inversion H; subst. exists []. simpl. rewrite app_nil_r. auto 10.
  - destruct (loop_body s f) as [s1 st1] eqn:E.
    destruct (loop_body_extends _ _ _ _ E) as (evs1 & T1 & W1 & L1 & C1 & R1 & B1).
    destruct st1 as [f1|e f1|f1];
      try (inversion H; subst; exists evs1; auto 10; fail).
    destruct (IH _ _ _ _ H) as (evs2 & T2 & W2 & L2 & C2 & R2 & B2).
    exists (evs1 ++ evs2). simpl in T1, L1, C1, B1.
    rewrite T2, T1, app_assoc, L2, C2, L1, C1, B2, B1, buf_after_app.
    repeat split.
    + unfold replay. rewrite fold_left_app. fold (replay src dst evs1 s).
      rewrite <- W1. exact W2.
    + apply reads_reuse_app; [assumption|]. rewrite <- B1. assumption.
Qed.

Lemma run_accounted (n : nat) :
  forall s f s' st,
    accounted f -> run n s f = (s', st) -> accounted (frame_of st).
Proof.
  induction n as [|n IH]; intros s f s' st Ha H; simpl in H.
  - inversion H; subst; auto.
  - destruct (loop_body s f) as [s1 st1] eqn:E.
    pose proof (loop_body_accounted _ _ _ _ Ha E) as Ha1.
    destruct st1 as [f1|e f1|f1]; try (inversion H; subst; exact Ha1).
    eapply IH; eauto.
Qed.

Lemma frame_of_finish (f : frame) (er : option error) : frame_of (finish f er) = f.
Proof. destruct er; reflexivity. Qed.

Lemma frame_of_write_exit (f : frame) (w : write_result St) (rn : Z) (er : option error) :
  frame_of (write_exit f w rn er) = f.
Proof.
  unfold write_exit. destruct (w_err w); [reflexivity|].
  destruct (negb _); [reflexivity|]. apply frame_of_finish.
Qed.

Lemma accounted_init (b : slice) : accounted (init_frame b).
Proof. reflexivity. Qed.

Lemma quiet_init (b : slice) : quiet (trace (init_frame b)).
Proof. constructor. Qed.

(** A call that has returned keeps its result with more fuel; its world is
    that of its calls, its count that of its log. *)
Lemma returned_outcome (b : option slice) (s s' : St) (n : nat)
      (err : option error) (f : frame) :
  run n s (init_frame (buf_or_default b)) = (s', Return err f) ->
  forall fuel, (n <= fuel)%nat ->
    OneWayLinkSpec fuel ctx src dst b cb s =
    Some (Finished (replay src dst (trace f) s)
                   (wrap64 (total_written (trace f))) err (trace f)).
Proof.
  intros H fuel Hfuel. unfold OneWayLinkSpec.
  rewrite (run_stable n _ _ _ _ H I fuel Hfuel).
  destruct (run_extends n _ _ _ _ H) as (evs & T & W & _).
  simpl in T. subst evs.
  pose proof (run_accounted n _ _ _ _ (accounted_init _) H) as Ha.
  unfold accounted in Ha. simpl in Ha. rewrite Ha, W. reflexivity.
Qed.

(** An event that reports an error belongs to the iteration in which the
    run stopped. *)
Lemma error_stops (b : slice) (s s' : St) (n : nat) (st : status)
      (pre post : list event) (ev : event) :
  run n s (init_frame b) = (s', st) ->
  trace (frame_of st) = pre ++ ev :: post ->
  ~ quiet_event ev ->
  exists s0 f0 a,
    loop_body s0 f0 = (s', st) /\ pre = trace f0 ++ a
    /\ trace (frame_of st) = trace f0 ++ a ++ ev :: post
    /\ buf f0 = buf_after b (trace f0)
    /\ s0 = replay src dst (trace f0) s.
Proof.
  intros H T Hev.
  assert (Hst : stopped st).
  { destruct st as [f| |]; simpl; auto.
    destruct (run_Continue n _ _ _ _ (quiet_init b) (accounted_init b) H) as [Hq _].
    simpl in T. unfold quiet in Hq. rewrite T in Hq.
    apply Forall_app in Hq. destruct Hq as [_ Hq].
    inversion Hq; subst. contradiction. }
  destruct (run_last n _ _ _ _ H Hst) as (k & s0 & f0 & _ & Hk & Hb).
  destruct (run_Continue k _ _ _ _ (quiet_init b) (accounted_init b) Hk) as [Hq _].
  destruct (run_extends k _ _ _ _ Hk) as (evs0 & T0 & W0 & _ & _ & _ & B0).
  simpl in T0, B0. subst evs0.
  destruct (loop_body_extends _ _ _ _ Hb) as (evs & T1 & _).
  rewrite T1 in T.
  destruct (split_after quiet_event (trace f0) Hq pre ev post evs Hev (eq_sym T))
    as (a & Hpre & Hevs).
  exists s0, f0, a. subst evs. auto 10.
Qed.
End Iterations.

(** ** Write errors *)

Section WriteErrors.
Context {St : Type}.
Variable ctx : option Ctx.
Variable src : Reader St.
Variable dst : Writer St.
Variable cb : option callbackFunc.

(** A [Write] that reports an error is the last call of the run, and the
    run has returned that error. *)
Lemma failed_write_returns (b : slice) (s s' : St) (n : nat) (st : status)
      (pre post : list event) (p : list byte) (wn : Z) (e : error) :
  run ctx src dst cb n s (init_frame b) = (s', st) ->
  trace (frame_of st) = pre ++ EvWrite p wn (Some e) :: post ->
  post = [] /\ st = Return (Some e) (frame_of st).
Proof.
  intros HR T.
  destruct (error_stops ctx src dst cb _ _ _ _ _ _ _ _ HR T)
    as (s0 & f0 & a & Hb & Hpre & T' & _); [simpl; congruence|].
  clear T HR.
  destruct (loop_body_cases ctx src dst cb s0 f0) as [[_ E]|[[_ E]|[_ E]]];
    rewrite E in Hb; inversion Hb; subst st; clear Hb E.
  - rewrite frame_of_finish in T'. simpl in T'. apply app_inv_head in T'.
    destruct a as [|x [|y a]]; simpl in T'; discriminate.
  - simpl in T'. apply app_inv_head in T'.
    destruct a as [|x [|y a]]; simpl in T'; discriminate.
  - rewrite frame_of_write_exit in *. simpl in T'.
    rewrite <- app_assoc in T'. apply app_inv_head in T'. simpl in T'.
    destruct a as [|x [|y a]]; simpl in T'; try discriminate.
    + injection T' as _ _ _ Hew Hpost. subst post. split; [reflexivity|].
      unfold write_exit. rewrite Hew. reflexivity.
    + inversion T'. destruct a; discriminate.
Qed.
End WriteErrors.

(** C5. If a [Write] call made during [OneWayLinkSpec] reports an error, no
    further [Read] or [Write] is made (the failing call is the last of the
    log and the world is left as that call left it), and the call returns
    that error with a byte count equal to the bytes written by the calls
    before it plus the count the failing call itself reported - as the
    [int64] sum the code computes. *)
Theorem write_error_ends_the_copy :
  forall (St : Type) (ctx : option Ctx) (src : Reader St) (dst : Writer St)
         (cb : option callbackFunc) (b : option slice) (s : St) (n : nat)
         (pre post : list event) (p : list byte) (wn : Z) (e : error),
    log_after n ctx src dst b cb s = pre ++ EvWrite p wn (Some e) :: post ->
    post = [] /\
    forall fuel, (n <= fuel)%nat ->
      OneWayLinkSpec fuel ctx src dst b cb s =
      Some (Finished (replay src dst (pre ++ [EvWrite p wn (Some e)]) s)
                     (add64 (wrap64 (total_written pre)) (Z.max 0 wn))
                     (Some e)
                     (pre ++ [EvWrite p wn (Some e)])).
Proof.
  intros St ctx src dst cb b s n pre post p wn e T. unfold log_after in T.
  destruct (run ctx src dst cb n s (init_frame (buf_or_default b))) as [s' st] eqn:HR.
  simpl in T.
  destruct (failed_write_returns ctx src dst cb _ _ _ _ _ _ _ _ _ _ HR T) as [-> Hst].
  split; [reflexivity|]. intros fuel Hfuel.
  rewrite Hst in HR.
  rewrite (returned_outcome ctx src dst cb b s s' n _ _ HR fuel Hfuel).
  rewrite T, total_written_app. simpl.
  unfold add64. rewrite wrap64_add_l. do 3 f_equal. lia.
Qed.

(** C10. If a single [Write] call reports both a short byte count and an
    error, [OneWayLinkSpec] returns that write error: the test [ew != nil]
    comes before the test [wn != rn], so the short count is never turned
    into [io.ErrShortWrite]. *)
Theorem write_error_before_short_write :
  forall (St : Type) (ctx : option Ctx) (src : Reader St) (dst : Writer St)
         (cb : option callbackFunc) (b : option slice) (s : St) (n : nat)
         (pre post : list event) (p : list byte) (wn : Z) (e : error),
    log_after n ctx src dst b cb s = pre ++ EvWrite p wn (Some e) :: post ->
    wn < Z.of_nat (length p) ->
    forall fuel, (n <= fuel)%nat ->
      exists s' count,
        OneWayLinkSpec fuel ctx src dst b cb s =
        Some (Finished s' count (Some e) (pre ++ [EvWrite p wn (Some e)])).
Proof.
  intros St ctx src dst cb b s n pre post p wn e T Hshort fuel Hfuel.
  unfold log_after in T.
  destruct (run ctx src dst cb n s (init_frame (buf_or_default b))) as [s' st] eqn:HR.
  simpl in T.
  destruct (failed_write_returns ctx src dst cb _ _ _ _ _ _ _ _ _ _ HR T) as [-> Hst].
  rewrite Hst in HR.
  rewrite (returned_outcome ctx src dst cb b s s' n _ _ HR fuel Hfuel).
  rewrite T. eauto.
Qed.

(** ** Data delivered together with end-of-input *)

Section FinalChunk.
Context {St : Type}.
Variable ctx : option Ctx.
Variable src : Reader St.
Variable dst : Writer St.
Variable cb : option callbackFunc.

(** A [Read] that reports bytes and end-of-input is followed by exactly
    one [Write], of the transformed chunk, and the run stops there. *)
Lemma final_chunk_written (b : slice) (s s' : St) (n : nat) (st : status)
      (pre post : list event) (p0 : slice) (data : list byte) (rn : Z) :
  run ctx src dst cb n s (init_frame b) = (s', st) ->
  trace (frame_of st) = pre ++ EvRead p0 data rn (Some EOF) :: post ->
  0 < rn <= Z.of_nat (cap p0) ->
  exists wn ew,
    post = [EvWrite (apply_cb cb (firstn (Z.to_nat rn) (arr (store data p0)))) wn ew]
    /\ st = Return match ew with
                   | Some e => Some e
                   | None => if negb (wn =? rn) then Some ErrShortWrite else None
                   end (frame_of st).
Proof.
  intros HR T Hrn.
  destruct (error_stops ctx src dst cb _ _ _ _ _ _ _ _ HR T)
    as (s0 & f0 & a & Hb & Hpre & T' & _); [simpl; congruence|].
  clear T HR.
  destruct (loop_body_cases ctx src dst cb s0 f0) as [[Hle E]|[[Hgt E]|[_ E]]];
    rewrite E in Hb; inversion Hb; subst st; clear Hb E.
  - rewrite frame_of_finish in T'. simpl in T'. apply app_inv_head in T'.
    destruct a as [|x [|y a]]; simpl in T'; try discriminate.
    injection T' as _ _ Hn _ _. lia.
  - simpl in T'. apply app_inv_head in T'.
    destruct a as [|x [|y a]]; simpl in T'; try discriminate.
    injection T' as Hp _ Hn _ _. subst. lia.
  - rewrite frame_of_write_exit in *. simpl in T'.
    rewrite <- app_assoc in T'. apply app_inv_head in T'. simpl in T'.
    destruct a as [|x [|y a]]; simpl in T'; try discriminate.
    + injection T' as Hp Hd Hn He Hpost. subst p0 data rn post.
      eexists _, _. split; [reflexivity|].
      unfold write_exit. rewrite He.
      destruct (w_err _); [reflexivity|].
      destruct (negb _); reflexivity.
    + injection T' as _ _ Hpost. destruct a; discriminate.
Qed.
End FinalChunk.

(** C9 (amended). If a [Read] call made during [OneWayLinkSpec] reports a
    positive byte count (within the buffer's capacity) together with
    end-of-input, that chunk is still transformed and offered to [Write], no
    further call is made, and the count that [Write] reports is added to the
    returned byte count.  The call returns the write's error when it reports
    one, and no error when the write reports none and takes the whole chunk,
    the transform having kept its length. *)
Theorem final_chunk_is_delivered :
  forall (St : Type) (ctx : option Ctx) (src : Reader St) (dst : Writer St)
         (cb : option callbackFunc) (b : option slice) (s : St) (n : nat)
         (pre post : list event) (p0 : slice) (data : list byte) (rn : Z),
    log_after n ctx src dst b cb s = pre ++ EvRead p0 data rn (Some EOF) :: post ->
    0 < rn <= Z.of_nat (cap p0) ->
    let chunk := firstn (Z.to_nat rn) (arr (store data p0)) in
    exists wn ew err,
      post = [EvWrite (apply_cb cb chunk) wn ew]
      /\ (forall fuel, (n <= fuel)%nat ->
            OneWayLinkSpec fuel ctx src dst b cb s =
            Some (Finished (replay src dst (pre ++ EvRead p0 data rn (Some EOF) :: post) s)
                           (add64 (wrap64 (total_written pre)) (Z.max 0 wn))
                           err
                           (pre ++ EvRead p0 data rn (Some EOF) :: post)))
      /\ (forall e, ew = Some e -> err = Some e)
      /\ (ew = None ->
          wn = Z.of_nat (length (apply_cb cb chunk)) ->
          length (apply_cb cb chunk) = length chunk ->
          err = None).
Proof.
  intros St ctx src dst cb b s n pre post p0 data rn T Hrn chunk.
  unfold log_after in T.
  destruct (run ctx src dst cb n s (init_frame (buf_or_default b))) as [s' st] eqn:HR.
  simpl in T.
  destruct (final_chunk_written ctx src dst cb _ _ _ _ _ _ _ _ _ _ HR T Hrn)
    as (wn & ew & Hpost & Hst).
  exists wn, ew. eexists. split; [exact Hpost|]. split; [|split].
  - intros fuel Hfuel. rewrite Hst in HR.
    rewrite (returned_outcome ctx src dst cb b s s' n _ _ HR fuel Hfuel).
    rewrite T, Hpost, total_written_app. simpl.
    unfold add64. rewrite wrap64_add_l. do 3 f_equal. lia.
  - intros e ->. reflexivity.
  - intros -> Hwn Hlen.
    assert (Hc : length chunk = Z.to_nat rn).
    { unfold chunk. rewrite length_firstn. fold (cap (store data p0)).
      rewrite cap_store. lia. }
    replace (wn =? rn) with true; [reflexivity|].
    symmetry. apply Z.eqb_eq. lia.
Qed.

(** ** The buffer *)



(** ** Effects on the endpoints *)

Lemma replay_keeps {St A : Type} (obs : St -> A) (src : Reader St) (dst : Writer St) :
  (forall s p, obs (r_world (Read src s p)) = obs s) ->
  (forall s p, obs (w_world (Write dst s p)) = obs s) ->
  forall tr s, obs (replay src dst tr s) = obs s.
Proof.
  intros Hr Hw. unfold replay.
  induction tr as [|[p d rn er|p wn ew] tr IH]; intros s; simpl.
  - reflexivity.
  - rewrite IH. apply Hr.
  - rewrite IH. apply Hw.
Qed.

(** C8. [OneWayLinkSpec] acts on the world only through [Read] calls on the
    source and [Write] calls on the destination: at any point of a run, and
    at return, the world is the one obtained by making the logged calls in
    order.  Hence whatever those two calls leave unchanged - such as the
    open/closed state of either endpoint, which only [Close] changes - is
    unchanged by the whole call. *)
Theorem only_reads_and_writes :
  forall (St A : Type) (obs : St -> A) (ctx : option Ctx) (src : Reader St)
         (dst : Writer St) (cb : option callbackFunc),
    (forall s p, obs (r_world (Read src s p)) = obs s) ->
    (forall s p, obs (w_world (Write dst s p)) = obs s) ->
    forall (fuel : nat) (b : option slice) (s : St),
      world_after fuel ctx src dst b cb s
      = replay src dst (log_after fuel ctx src dst b cb s) s
      /\ obs (world_after fuel ctx src dst b cb s) = obs s
      /\ forall o, OneWayLinkSpec fuel ctx src dst b cb s = Some o ->
                   world_of o = replay src dst (log_of o) s
                   /\ obs (world_of o) = obs s.
Proof.
  intros St A obs ctx src dst cb Hr Hw fuel b s.
  unfold OneWayLinkSpec, world_after, log_after.
  destruct (run ctx src dst cb fuel s (init_frame (buf_or_default b))) as [s' st] eqn:HR.
  destruct (run_extends ctx src dst cb fuel _ _ _ _ HR) as (evs & T & W & _).
  pose proof (replay_keeps obs src dst Hr Hw evs s) as K.
  simpl in T. rewrite <- T in W, K. rewrite <- W in K. simpl.
  split; [exact W|]. split; [exact K|].
  intros o Ho.
  destruct st as [f|e f|f]; inversion Ho; subst o; simpl in *; auto.
Qed.

(** ** Copying a finite source with the identity transform *)

Section FiniteSource.
Context {St : Type}.
Variable ctx : option Ctx.
Variable src : Reader St.
Variable dst : Writer St.
Variable b : option slice.

(** The worlds the copy goes through, and how much the source still has
    to give in each. *)
Variable good : St -> Prop.
Variable remaining : St -> nat.

Hypothesis buffer_shape :
  (len (buf_or_default b) <= cap (buf_or_default b))%nat.

(** The source is finite: a [Read] reports end-of-input, or no error and
    then the source has less left; it reports a count within the slice it
    was given. *)
Hypothesis source_finite :
  forall s p,
    good s -> len p = len (buf_or_default b) -> cap p = cap (buf_or_default b) ->
    good (r_world (Read src s p))
    /\ 0 <= r_n (Read src s p) <= Z.of_nat (len p)
    /\ (r_err (Read src s p) = Some EOF
        \/ (r_err (Read src s p) = None
            /\ (remaining (r_world (Read src s p)) < remaining s)%nat)).

(** The destination accepts every byte offered, and leaves the source
    alone. *)
Hypothesis destination_accepts :
  forall s p,
    good s ->
    good (w_world (Write dst s p))
    /\ w_n (Write dst s p) = Z.of_nat (length p)
    /\ w_err (Write dst s p) = None
    /\ remaining (w_world (Write dst s p)) = remaining s.


End FiniteSource.

(** ** The two-way relay: what every interleaving keeps *)

Section RelayFacts.
Context {St : Type}.
Variable ctx : option Ctx.
Variables h1 h2 : ReadWriteCloser St.
Variables cb1 cb2 : option callbackFunc.

Lemma copy_step_settled (src : Reader St) (dst : Writer St)
      (cb : option callbackFunc) (s : St) (pc : flow_pc)
      (old : option (Z * option error)) (w : Z) :
  match pc with PRead _ | PWrite _ _ _ _ => True | _ => False end ->
  settled (snd (copy_step ctx src dst cb s pc))
          (returned (snd (copy_step ctx src dst cb s pc)) old) w
  /\ snd (copy_step ctx src dst cb s pc) <> PEnd.
Proof.
  destruct pc; try (simpl; contradiction); intros _; unfold copy_step.
  - destruct (do_read ctx src cb s f) as [s1 ar].
    destruct ar as [f1|f1|f1 tbuf rn er|f1 er]; simpl.
    1-3: split; [auto|discriminate].
    destruct er; simpl; split; auto; discriminate.
  - destruct (do_write dst s f tbuf rn er) as [s2 [f2|e f2|f2]];
      simpl; split; auto; discriminate.
Qed.

Lemma step_background_copy (c : config St) :
  copying (g_pc c) ->
  step_background ctx h1 h2 cb1 c
  = {| sh := set_world (sh c)
            (fst (copy_step ctx (as_Reader h1) (as_Writer h2) cb1 (sh_world (sh c)) (g_pc c)));
       g_pc := snd (copy_step ctx (as_Reader h1) (as_Writer h2) cb1 (sh_world (sh c)) (g_pc c));
       m_pc := m_pc c;
       g_ret := returned
                  (snd (copy_step ctx (as_Reader h1) (as_Writer h2) cb1 (sh_world (sh c)) (g_pc c)))
                  (g_ret c);
       m_ret := m_ret c |}.
Proof.
  unfold step_background.
  destruct (g_pc c); try contradiction; intros _;
    destruct (copy_step _ _ _ _ _ _); reflexivity.
Qed.

Lemma step_caller_copy (c : config St) :
  copying (m_pc c) ->
  step_caller ctx h1 h2 cb2 c
  = {| sh := set_world (sh c)
            (fst (copy_step ctx (as_Reader h2) (as_Writer h1) cb2 (sh_world (sh c)) (m_pc c)));
       g_pc := g_pc c;
       m_pc := snd (copy_step ctx (as_Reader h2) (as_Writer h1) cb2 (sh_world (sh c)) (m_pc c));
       g_ret := g_ret c;
       m_ret := returned
                  (snd (copy_step ctx (as_Reader h2) (as_Writer h1) cb2 (sh_world (sh c)) (m_pc c)))
                  (m_ret c) |}.
Proof.
  unfold step_caller.
  destruct (m_pc c); try contradiction; intros _;
    destruct (copy_step _ _ _ _ _ _); reflexivity.
Qed.

Lemma step_background_coherent (c : config St) :
  coherent c -> coherent (step_background ctx h1 h2 cb1 c).
Proof.
  intros (Hg & Hm & Hexit & Hend).
  destruct (g_pc c) eqn:Eg.
  1-2: rewrite step_background_copy by (rewrite Eg; exact I);
    destruct (copy_step_settled (as_Reader h1) (as_Writer h2) cb1
                (sh_world (sh c)) (g_pc c) (g_ret c) (sh_w1 (sh c))
                ltac:(rewrite Eg; exact I)) as [K1 K2];
    unfold coherent; cbn [sh g_pc m_pc g_ret m_ret set_world sh_w1 sh_w2 sh_exit];
    (split; [exact K1|]); (split; [exact Hm|]);
    (split; [intros Hx; specialize (Hexit Hx); discriminate
            |intros Hx; specialize (Hexit (Hend Hx)); discriminate]).
  all: unfold step_background; rewrite Eg; unfold coherent;
    cbn [sh g_pc m_pc g_ret m_ret set_world sh_w1 sh_w2 sh_exit settled] in *.
  all: try (rewrite Eg; cbn [settled]); repeat split; eauto;
    try (intros Hx; specialize (Hexit Hx); discriminate).
Qed.

Lemma step_caller_coherent (c : config St) :
  coherent c -> coherent (step_caller ctx h1 h2 cb2 c).
Proof.
  intros (Hg & Hm & Hexit & Hend).
  destruct (m_pc c) eqn:Em.
  1-2: rewrite step_caller_copy by (rewrite Em; exact I);
    destruct (copy_step_settled (as_Reader h2) (as_Writer h1) cb2
                (sh_world (sh c)) (m_pc c) (m_ret c) (sh_w2 (sh c))
                ltac:(rewrite Em; exact I)) as [K1 K2];
    unfold coherent; cbn [sh g_pc m_pc g_ret m_ret set_world sh_w1 sh_w2 sh_exit];
    (split; [exact Hg|]); (split; [exact K1|]);
    (split; [exact Hexit|intros Hx; contradiction]).
  all: unfold step_caller; rewrite Em; try destruct (sh_exit (sh c)) eqn:Ex;
    unfold coherent;
    cbn [sh g_pc m_pc g_ret m_ret set_world sh_w1 sh_w2 sh_exit settled] in *.
  all: try (rewrite Em; cbn [settled]); repeat split; eauto; try discriminate.
Qed.

Lemma step_coherent (who : flow) (c : config St) :
  coherent c -> coherent (step ctx h1 h2 cb1 cb2 who c).
Proof.
  unfold step. destruct (is_panic (g_pc c) || is_panic (m_pc c)); [auto|].
  destruct who; [apply step_background_coherent | apply step_caller_coherent].
Qed.

Lemma exec_coherent (sched : list flow) :
  forall c, coherent c -> coherent (exec ctx h1 h2 cb1 cb2 sched c).
Proof.
  induction sched as [|who sched IH]; intros c Hc; simpl; [exact Hc|].
  apply IH. apply step_coherent. exact Hc.
Qed.

Lemma start_coherent (buf1 buf2 : option slice) (s : St) :
  coherent (start buf1 buf2 s).
Proof.
  unfold coherent, start; simpl. repeat split; auto; discriminate.
Qed.

(** Whatever the interleaving, when [TwoWayLinkSpec] returns the background
    flow has finished, both calls of [OneWayLinkSpec] have returned, and
    [w1] and [w2] are the byte counts those calls returned. *)
Lemma relay_returns_after_both (sched : list flow) (buf1 buf2 : option slice)
      (s : St) (w1 w2 : Z) (e1 e2 : option error) :
  TwoWayLinkSpec sched ctx h1 h2 buf1 buf2 cb1 cb2 s = Some (w1, w2, e1, e2) ->
  g_pc (exec ctx h1 h2 cb1 cb2 sched (start buf1 buf2 s)) = PEnd
  /\ exists r1 r2,
       g_ret (exec ctx h1 h2 cb1 cb2 sched (start buf1 buf2 s)) = Some (w1, r1)
       /\ m_ret (exec ctx h1 h2 cb1 cb2 sched (start buf1 buf2 s)) = Some (w2, r2).
Proof.
  unfold TwoWayLinkSpec, results.
  pose proof (exec_coherent sched _ (start_coherent buf1 buf2 s)) as (Hg & Hm & Hexit & Hend).
  destruct (m_pc (exec ctx h1 h2 cb1 cb2 sched (start buf1 buf2 s))) eqn:Em;
    try discriminate.
  intros H. injection H as <- <- <- <-.
  specialize (Hend eq_refl). specialize (Hexit Hend).
  rewrite Hexit in Hg. simpl in Hg, Hm.
  destruct Hg as [r1 Hg], Hm as [r2 Hm]. eauto.
Qed.
End RelayFacts.

(** ** The short-write test, run *)

(** With no write error, the loop compares the count written with the count
    read ([wn != rn]), whatever the length of the chunk offered. *)
Lemma short_write_test {St : Type} (dst : Writer St) (s : St) (f : frame)
      (tbuf : list byte) (rn : Z) (er : option error) :
  w_err (Write dst s tbuf) = None ->
  snd (do_write dst s f tbuf rn er)
  = if w_n (Write dst s tbuf) =? rn
    then finish (wrote f tbuf (Write dst s tbuf)) er
    else Return (Some ErrShortWrite) (wrote f tbuf (Write dst s tbuf)).
Proof.
  intros H. unfold do_write, write_exit. simpl. rewrite H.
  destruct (w_n (Write dst s tbuf) =? rn); reflexivity.
Qed.

(** C1 (the code departs from it). Two runs with the transform that
    doubles every byte.  In the first the destination takes the whole
    doubled chunk and reports no error, and the copy still returns
    [io.ErrShortWrite].  In the second the destination takes only half of
    the doubled chunk and reports no error, and the copy goes on to a clean
    end with no error. *)
Theorem short_write_test_misfires :
  (exists s,
      OneWayLink 2 None Conn.src Conn.dst (Some Conn.double)
                 (Conn.feeding (Conn.bytes "a"))
      = Some (Finished s 2 (Some ErrShortWrite)
                [EvRead (make 1024) (Conn.bytes "a") 1 None;
                 EvWrite (Conn.bytes "aa") 2 None])
      /\ Conn.output (Conn.end2 s) = Conn.bytes "aa")
  /\ (exists s,
         OneWayLinkSpec 3 None Conn.src Conn.dst (Some (make 2)) (Some Conn.double)
                        (Conn.feeding_limited (Conn.bytes "ab") 2)
         = Some (Finished s 2 None
                   [EvRead (make 2) (Conn.bytes "ab") 2 None;
                    EvWrite (Conn.bytes "aabb") 2 None;
                    EvRead {| arr := Conn.bytes "ab"; len := 2 |} [] 0 (Some EOF)])
         /\ Conn.output (Conn.end2 s) = Conn.bytes "aa").
Proof.
  split; eexists; split; lazy; reflexivity.
Qed.

(** C2 (the code departs from it). Source "abc", a 2-byte buffer, the
    doubling transform and a destination that takes every byte: the
    transformed chunks are 4 and 2 bytes long, 6 in all; the copy stops
    after the first with [io.ErrShortWrite] and a count of 4, the last
    source byte never read. *)
Theorem doubling_transform_is_cut_short :
  exists s tr,
    OneWayLinkSpec 10 None Conn.src Conn.dst (Some (make 2)) (Some Conn.double)
                   (Conn.feeding (Conn.bytes "abc"))
    = Some (Finished s 4 (Some ErrShortWrite) tr)
    /\ chunks_offered tr = [Conn.bytes "aabb"]
    /\ Conn.output (Conn.end2 s) = Conn.bytes "aabb"
    /\ Conn.input (Conn.end1 s) = Conn.bytes "c"
    /\ length (Conn.double (Conn.bytes "ab") ++ Conn.double (Conn.bytes "c")) = 6%nat.
Proof.
  do 2 eexists. split; [lazy; reflexivity|].
  repeat split; reflexivity.
Qed.

(** ** The relay's shared [err], run *)

(** C7 (the code departs from it). [h1] has nothing to deliver and refuses
    writes, [h2] has one byte for it: the copy from [h1] to [h2] ends
    cleanly, the copy from [h2] to [h1] ends with the write error.  Both
    flows assign the one variable [err] and then test it.  When the caller
    assigns first and tests last, the quadruple reports no error at all;
    when the background flow tests after the caller has assigned, it reports
    the other direction's error as [e1]; when each flow tests right after
    its own assignment, each error is reported for its own direction. *)
Theorem relay_errors_race :
  let run_with sched :=
    exec None Conn.h1 Conn.h2 None None sched
         (start (Some (make 4)) (Some (make 4)) (Conn.peer_gone (Conn.bytes "x"))) in
  (g_ret (run_with Conn.caller_assigns_first) = Some (0, None)
   /\ m_ret (run_with Conn.caller_assigns_first) = Some (0, Some Conn.ErrBroken)
   /\ results (run_with Conn.caller_assigns_first) = Some (0, 0, None, None))
  /\ (g_ret (run_with Conn.background_tests_late) = Some (0, None)
      /\ m_ret (run_with Conn.background_tests_late) = Some (0, Some Conn.ErrBroken)
      /\ results (run_with Conn.background_tests_late)
         = Some (0, 0, Some Conn.ErrBroken, Some Conn.ErrBroken))
  /\ (g_ret (run_with Conn.test_follows_assignment) = Some (0, None)
      /\ m_ret (run_with Conn.test_follows_assignment) = Some (0, Some Conn.ErrBroken)
      /\ results (run_with Conn.test_follows_assignment)
         = Some (0, 0, None, Some Conn.ErrBroken)).
Proof.
  cbv zeta. repeat split; vm_compute; reflexivity.
Qed.

(** ** A last chunk that cannot be written *)

(** C9, as stated, fails: [h1] delivers "abc" together with end-of-input,
    [h2] refuses the write; the chunk is offered to [Write], and the call
    returns the write error, not "no error". *)
Lemma final_chunk_write_error :
  exists s,
    OneWayLinkSpec 2 None Conn.src Conn.dst (Some (make 4)) None
                   (Conn.last_chunk_to_broken (Conn.bytes "abc"))
    = Some (Finished s 0 (Some Conn.ErrBroken)
              [EvRead (make 4) (Conn.bytes "abc") 3 (Some EOF);
               EvWrite (Conn.bytes "abc") 0 (Some Conn.ErrBroken)]).
Proof.
  eexists. lazy. reflexivity.
Qed.

(** ** The concrete endpoints meet the assumptions *)

Lemma conn_read_keeps_flags (s : Conn.world) (p : slice) :
  Conn.closed_flags (r_world (Read Conn.src s p)) = Conn.closed_flags s.
Proof.
  destruct s as [e1 e2].
  unfold Conn.src, as_Reader, Conn.h1, Conn.read_end, Conn.closed_flags; simpl.
  destruct (Conn.closed e1) eqn:E; simpl; rewrite ?E; [reflexivity|].
  destruct (Conn.input e1); simpl; rewrite ?E; reflexivity.
Qed.

Lemma conn_write_keeps_flags (s : Conn.world) (p : list byte) :
  Conn.closed_flags (w_world (Write Conn.dst s p)) = Conn.closed_flags s.
Proof.
  destruct s as [e1 e2].
  unfold Conn.dst, as_Writer, Conn.h2, Conn.write_end, Conn.closed_flags; simpl.
  destruct (Conn.closed e2) eqn:E; simpl; rewrite ?E; [reflexivity|].
  destruct (Conn.broken e2); simpl; rewrite ?E; [reflexivity|].
  destruct (Conn.room e2) as [k|]; [destruct (k <? _)%nat|]; simpl; rewrite ?E; reflexivity.
Qed.



(** Scenario A of the specification, run: "hello world" through a 4-byte
    buffer, three chunks, [(11, nil)]. *)
Example scenario_hello_world :
  exists s tr,
    OneWayLinkSpec 4 None Conn.src Conn.dst (Some (make 4)) None
                   (Conn.feeding (Conn.bytes "hello world"))
    = Some (Finished s 11 None tr)
    /\ Conn.output (Conn.end2 s) = Conn.bytes "hello world"
    /\ chunks_offered tr = [Conn.bytes "hell"; Conn.bytes "o wo"; Conn.bytes "rld"].
Proof.
  do 2 eexists. split; [lazy; reflexivity|]. split; reflexivity.
Qed.

(** ** The theorems at concrete inputs *)


Lemma write_error_ends_the_copy_witness :
  log_after 2 None Conn.src Conn.dst (Some (make 4)) None
            (Conn.feeding_bounded (Conn.bytes "hello world") 6)
  = Conn.hello_log ++ EvWrite (Conn.bytes "o wo") 2 (Some Conn.ErrFull) :: []
  /\ OneWayLinkSpec 5 None Conn.src Conn.dst (Some (make 4)) None
                    (Conn.feeding_bounded (Conn.bytes "hello world") 6)
     = Some (Finished
               (replay Conn.src Conn.dst
                       (Conn.hello_log ++ [EvWrite (Conn.bytes "o wo") 2 (Some Conn.ErrFull)])
                       (Conn.feeding_bounded (Conn.bytes "hello world") 6))
               6 (Some Conn.ErrFull)
               (Conn.hello_log ++ [EvWrite (Conn.bytes "o wo") 2 (Some Conn.ErrFull)])).
Proof.
  assert (H : log_after 2 None Conn.src Conn.dst (Some (make 4)) None
                         (Conn.feeding_bounded (Conn.bytes "hello world") 6)
              = Conn.hello_log ++ EvWrite (Conn.bytes "o wo") 2 (Some Conn.ErrFull) :: [])
    by (vm_compute; reflexivity).
  split; [exact H|].
  apply (proj2 (write_error_ends_the_copy Conn.world None Conn.src Conn.dst None
                  (Some (make 4)) _ 2 Conn.hello_log [] (Conn.bytes "o wo") 2 Conn.ErrFull H)
               5%nat).
  lia.
Defined.

Lemma write_error_before_short_write_witness :
  2 < Z.of_nat (length (Conn.bytes "o wo"))
  /\ exists s' count,
      OneWayLinkSpec 2 None Conn.src Conn.dst (Some (make 4)) None
                     (Conn.feeding_bounded (Conn.bytes "hello world") 6)
      = Some (Finished s' count (Some Conn.ErrFull)
                (Conn.hello_log ++ [EvWrite (Conn.bytes "o wo") 2 (Some Conn.ErrFull)])).
Proof.
  assert (Hshort : 2 < Z.of_nat (length (Conn.bytes "o wo"))) by (vm_compute; reflexivity).
  split; [exact Hshort|].
  apply (write_error_before_short_write Conn.world None Conn.src Conn.dst None
           (Some (make 4)) _ 2 Conn.hello_log [] (Conn.bytes "o wo") 2 Conn.ErrFull).
  - vm_compute. reflexivity.
  - exact Hshort.
  - lia.
Defined.

Lemma only_reads_and_writes_witness :
  Conn.closed_flags
    (world_after 3 None Conn.src Conn.dst None (Some Conn.double)
                 (Conn.feeding (Conn.bytes "hello world")))
  = Conn.closed_flags (Conn.feeding (Conn.bytes "hello world"))
  /\ forall o,
      OneWayLinkSpec 3 None Conn.src Conn.dst None (Some Conn.double)
                     (Conn.feeding (Conn.bytes "hello world")) = Some o ->
      world_of o = replay Conn.src Conn.dst (log_of o) (Conn.feeding (Conn.bytes "hello world"))
      /\ Conn.closed_flags (world_of o)
         = Conn.closed_flags (Conn.feeding (Conn.bytes "hello world")).
Proof.
  exact (proj2 (only_reads_and_writes Conn.world (bool * bool) Conn.closed_flags None
                  Conn.src Conn.dst (Some Conn.double)
                  conn_read_keeps_flags conn_write_keeps_flags
                  3 None (Conn.feeding (Conn.bytes "hello world")))).
Defined.

Lemma final_chunk_is_delivered_witness :
  0 < 3 <= Z.of_nat (cap (make 4))
  /\ exists wn ew err,
      [EvWrite (Conn.bytes "abc") 3 None]
      = [EvWrite (apply_cb None (firstn (Z.to_nat 3) (arr (store (Conn.bytes "abc") (make 4)))))
                 wn ew]
      /\ (forall fuel, (1 <= fuel)%nat ->
            OneWayLinkSpec fuel None Conn.src Conn.dst (Some (make 4)) None
                           (Conn.last_chunk (Conn.bytes "abc"))
            = Some (Finished
                      (replay Conn.src Conn.dst
                              ([] ++ EvRead (make 4) (Conn.bytes "abc") 3 (Some EOF)
                                  :: [EvWrite (Conn.bytes "abc") 3 None])
                              (Conn.last_chunk (Conn.bytes "abc")))
                      (add64 (wrap64 (total_written [])) (Z.max 0 wn))
                      err
                      ([] ++ EvRead (make 4) (Conn.bytes "abc") 3 (Some EOF)
                          :: [EvWrite (Conn.bytes "abc") 3 None])))
      /\ (forall e, ew = Some e -> err = Some e)
      /\ (ew = None ->
          wn = Z.of_nat (length (apply_cb None (firstn (Z.to_nat 3)
                                   (arr (store (Conn.bytes "abc") (make 4)))))) ->
          length (apply_cb None (firstn (Z.to_nat 3) (arr (store (Conn.bytes "abc") (make 4)))))
          = length (firstn (Z.to_nat 3) (arr (store (Conn.bytes "abc") (make 4)))) ->
          err = None).
Proof.
  assert (Hrn : 0 < 3 <= Z.of_nat (cap (make 4))) by (rewrite cap_make; lia).
  split; [exact Hrn|].
  apply (final_chunk_is_delivered Conn.world None Conn.src Conn.dst None (Some (make 4))
           (Conn.last_chunk (Conn.bytes "abc")) 1 []
           [EvWrite (Conn.bytes "abc") 3 None] (make 4) (Conn.bytes "abc") 3).
  - vm_compute. reflexivity.
  - exact Hrn.
Defined.

(** * Further properties *)

Lemma chunks_read_app (a b : list event) :
  chunks_read (a ++ b) = chunks_read a ++ chunks_read b.
Proof.
  induction a as [|[p d rn er|p wn ew] a IH]; simpl; auto.
  destruct ((0 <? rn) && (rn <=? Z.of_nat (cap p))); simpl; rewrite IH; reflexivity.
Qed.

Lemma chunks_offered_app (a b : list event) :
  chunks_offered (a ++ b) = chunks_offered a ++ chunks_offered b.
Proof.
  induction a as [|[p d rn er|p wn ew] a IH]; simpl; auto. rewrite IH. reflexivity.
Qed.

Lemma total_read_app (a b : list event) :
  total_read (a ++ b) = total_read a + total_read b.
Proof.
  induction a as [|[p d rn er|p wn ew] a IH]; simpl; lia.
Qed.

Lemma cons_eq {A : Type} (x y : A) (l l' : list A) :
  x :: l = y :: l' -> x = y /\ l = l'.
Proof. intros H. inversion H. auto. Qed.

Section Decompose.
Context {St : Type}.
Variable ctx : option Ctx.
Variable src : Reader St.
Variable dst : Writer St.
Variable cb : option callbackFunc.

Local Abbreviation loop_body := (loop_body ctx src dst cb).
Local Abbreviation run := (run ctx src dst cb).

Lemma run_app (k m : nat) :
  forall s f,
    run (k + m) s f
    = match run k s f with
      | (s', Continue f') => run m s' f'
      | done => done
      end.
Proof.
  induction k as [|k IH]; intros s f; simpl; [reflexivity|].
  destruct (loop_body s f) as [s1 [f1|e f1|f1]]; auto.
Qed.

(** What one iteration adds to the log: its [Read], and its [Write] when
    there is one. *)
Lemma loop_body_log (s s' : St) (f : frame) (st : status) :
  loop_body s f = (s', st) ->
  trace (frame_of st) = trace f ++ [read_event src s f]
  \/ exists q wn ew, trace (frame_of st) = trace f ++ [read_event src s f; EvWrite q wn ew].
Proof.
  intros H.
  destruct (loop_body_cases ctx src dst cb s f) as [[_ E]|[[_ E]|[_ E]]];
    rewrite E in H; clear E; inversion H; subst; clear H.
  - left. rewrite frame_of_finish. reflexivity.
  - left. reflexivity.
  - right. rewrite frame_of_write_exit. simpl. rewrite <- app_assoc.
    do 3 eexists. reflexivity.
Qed.

(** Every [Read] of a log is the read of an iteration begun at the loop
    head, with the log before it as the log so far. *)
Lemma read_origin (n : nat) :
  forall s f s' st a p d rn er post,
    run n s f = (s', st) ->
    trace (frame_of st) = (trace f ++ a) ++ EvRead p d rn er :: post ->
    exists k s0 f0,
      (k < n)%nat /\ run k s f = (s0, Continue f0)
      /\ trace f0 = trace f ++ a
      /\ EvRead p d rn er = read_event src s0 f0.
Proof.
  induction n as [|n IH]; intros s f s' st a p d rn er post H T; simpl in H.
  - inversion H; subst. simpl in T.
    apply (f_equal (@length event)) in T.
    rewrite !length_app in T. simpl in T. lia.
  - destruct (loop_body s f) as [s1 st1] eqn:E.
    pose proof (loop_body_log _ _ _ _ E) as L.
    assert (Hhere : forall post', read_event src s f :: post' = a ++ EvRead p d rn er :: post ->
                    a = [] ->
                    exists k s0 f0,
                      (k < S n)%nat /\ run k s f = (s0, Continue f0)
                      /\ trace f0 = trace f ++ a
                      /\ EvRead p d rn er = read_event src s0 f0).
    { intros post' T' ->. apply cons_eq in T' as [HR _].
      exists 0%nat, s, f. simpl. rewrite app_nil_r. repeat split; auto. lia. }
    destruct st1 as [f1|e1 f1|f1].
    + (* the loop goes on *)
      destruct (run_extends ctx src dst cb n _ _ _ _ H) as (evs2 & T2 & _).
      simpl in L. rewrite T2 in T.
      destruct L as [L|(q & wn & ew & L)]; rewrite L in T;
        rewrite <- !app_assoc in T; apply app_inv_head in T; cbn [app] in T.
      * destruct a as [|x a]; [eapply Hhere; eauto|].
        cbn [app] in T. apply cons_eq in T as [Hx Hrest].
        destruct (IH s1 f1 s' st a p d rn er post H) as (k & s0 & f0 & Hk & Hr & Ht & He).
        { rewrite T2, Hrest, app_assoc. reflexivity. }
        exists (S k), s0, f0. simpl. rewrite E.
        repeat split; auto; [lia|].
        rewrite Ht, L, <- app_assoc, <- Hx. reflexivity.
      * destruct a as [|x a]; [eapply Hhere; eauto|].
        cbn [app] in T. apply cons_eq in T as [Hx Hrest].
        destruct a as [|y a]; cbn [app] in Hrest; apply cons_eq in Hrest as [Hy Hrest];
          [discriminate Hy|].
        destruct (IH s1 f1 s' st a p d rn er post H) as (k & s0 & f0 & Hk & Hr & Ht & He).
        { rewrite T2, Hrest, app_assoc. reflexivity. }
        exists (S k), s0, f0. simpl. rewrite E.
        repeat split; auto; [lia|].
        rewrite Ht, L, <- app_assoc, <- Hx, <- Hy. reflexivity.
    + inversion H; subst s' st. simpl in L, T.
      destruct L as [L|(q & wn & ew & L)]; rewrite L in T;
        rewrite <- !app_assoc in T; apply app_inv_head in T; cbn [app] in T.
      * destruct a as [|x a]; [eapply Hhere; eauto|].
        cbn [app] in T. apply cons_eq in T as [_ Hrest]. destruct a; discriminate Hrest.
      * destruct a as [|x a]; [eapply Hhere; eauto|].
        cbn [app] in T. apply cons_eq in T as [_ Hrest].
        destruct a as [|y a]; cbn [app] in Hrest; apply cons_eq in Hrest as [Hy Hrest];
          [discriminate Hy|destruct a; discriminate Hrest].
    + inversion H; subst s' st. simpl in L, T.
      destruct L as [L|(q & wn & ew & L)]; rewrite L in T;
        rewrite <- !app_assoc in T; apply app_inv_head in T; cbn [app] in T.
      * destruct a as [|x a]; [eapply Hhere; eauto|].
        cbn [app] in T. apply cons_eq in T as [_ Hrest]. destruct a; discriminate Hrest.
      * destruct a as [|x a]; [eapply Hhere; eauto|].
        cbn [app] in T. apply cons_eq in T as [_ Hrest].
        destruct a as [|y a]; cbn [app] in Hrest; apply cons_eq in Hrest as [Hy Hrest];
          [discriminate Hy|destruct a; discriminate Hrest].
Qed.

(** What a run adds to the log starts with the [Read] of its first
    iteration. *)
Lemma run_starts_with_read (n : nat) (s s' : St) (f : frame) (st : status) :
  run n s f = (s', st) ->
  exists evs, trace (frame_of st) = trace f ++ evs
              /\ (evs = [] \/ exists tl, evs = read_event src s f :: tl).
Proof.
  destruct n as [|n]; simpl; intros H.
  - inversion H; subst. exists []. simpl. rewrite app_nil_r. auto.
  - destruct (loop_body s f) as [s1 st1] eqn:E.
    pose proof (loop_body_log _ _ _ _ E) as L.
    assert (Hext : exists evs, trace (frame_of st) = trace (frame_of st1) ++ evs).
    { destruct st1 as [f1|e1 f1|f1];
        try (inversion H; subst; exists []; rewrite app_nil_r; reflexivity).
      destruct (run_extends ctx src dst cb n _ _ _ _ H) as (evs & T & _).
      exists evs. exact T. }
    destruct Hext as (evs & Hext). rewrite Hext.
    destruct L as [L|(q & wn & ew & L)]; rewrite L, <- app_assoc;
      eexists; (split; [reflexivity|]); right; simpl; eauto.
Qed.
End Decompose.

Section MoreRuns.
Context {St : Type}.
Variable ctx : option Ctx.
Variable src : Reader St.
Variable dst : Writer St.
Variable cb : option callbackFunc.

Local Abbreviation loop_body := (loop_body ctx src dst cb).
Local Abbreviation run := (run ctx src dst cb).

(** A run that has reached the loop head goes on with the iteration that
    starts there. *)
Lemma run_through (k n : nat) (s s0 : St) (f f0 : frame) :
  run k s f = (s0, Continue f0) -> (k < n)%nat ->
  run n s f = match loop_body s0 f0 with
              | (s1, Continue f1) => run (n - S k) s1 f1
              | done => done
              end.
Proof.
  intros Hk Hn. replace n with (k + S (n - S k))%nat at 1 by lia.
  rewrite run_app, Hk. reflexivity.
Qed.

(** A call that has panicked keeps doing so with more fuel. *)
Lemma crashed_outcome (b : option slice) (s s' : St) (n : nat) (f : frame) :
  run n s (init_frame (buf_or_default b)) = (s', Panic f) ->
  forall fuel, (n <= fuel)%nat ->
    OneWayLinkSpec fuel ctx src dst b cb s
    = Some (Crashed (replay src dst (trace f) s) (trace f)).
Proof.
  intros H fuel Hfuel. unfold OneWayLinkSpec.
  rewrite (run_stable ctx src dst cb n _ _ _ _ H I fuel Hfuel).
  destruct (run_extends ctx src dst cb n _ _ _ _ H) as (evs & T & W & _).
  simpl in T. subst evs. rewrite W. reflexivity.
Qed.

(** The iteration in which a given [Read] of the log was made: it started
    at the loop head with the log before that [Read]; the log is that of
    this iteration, followed by what later iterations added, if any. *)
Lemma read_iteration (b : slice) (s : St) (n : nat)
      (pre post : list event) (p : slice) (d : list byte) (rn : Z) (er : option error) :
  trace (frame_of (snd (run n s (init_frame b)))) = pre ++ EvRead p d rn er :: post ->
  exists k s0 f0 s1 st1 rest,
    (k < n)%nat /\ run k s (init_frame b) = (s0, Continue f0)
    /\ trace f0 = pre /\ buf f0 = p
    /\ r_data (Read src s0 p) = d /\ r_n (Read src s0 p) = rn
    /\ r_err (Read src s0 p) = er
    /\ loop_body s0 f0 = (s1, st1)
    /\ trace (frame_of (snd (run n s (init_frame b)))) = trace (frame_of st1) ++ rest
    /\ match rest with EvWrite _ _ _ :: _ => False | _ => True end
    /\ (stopped st1 -> rest = [] /\ run n s (init_frame b) = (s1, st1)).
Proof.
  intros T.
  destruct (run n s (init_frame b)) as [s' st] eqn:HR. simpl in T.
  destruct (read_origin ctx src dst cb n s (init_frame b) s' st pre p d rn er post HR T)
    as (k & s0 & f0 & Hk & Hr & Ht & He).
  unfold read_event in He. injection He as Hp Hd Hn Her.
  pose proof (run_through k n s s0 _ f0 Hr Hk) as Hrun. rewrite HR in Hrun.
  destruct (loop_body s0 f0) as [s1 st1] eqn:E.
  simpl in Ht. subst p.
  destruct st1 as [f1|e1 f1|f1].
  - symmetry in Hrun.
    destruct (run_starts_with_read ctx src dst cb _ _ _ _ _ Hrun) as (rest & Tr & Hrest).
    exists k, s0, f0, s1, (Continue f1), rest. simpl.
    repeat split; auto; try contradiction.
    destruct Hrest as [->|(tl & ->)]; exact I.
  - inversion Hrun; subst.
    exists k, s0, f0, s1, (Return e1 f1), []. simpl. rewrite app_nil_r. repeat split; auto.
  - inversion Hrun; subst.
    exists k, s0, f0, s1, (Panic f1), []. simpl. rewrite app_nil_r. repeat split; auto.
Qed.
End MoreRuns.


(** X9. A [Read] that reports more bytes than the buffer's capacity makes
    [buf[:rn]] panic: it is the last call, nothing is written for it, and
    the call ends in a panic. *)
Theorem read_beyond_capacity_panics :
  forall (St : Type) (ctx : option Ctx) (src : Reader St) (dst : Writer St)
         (cb : option callbackFunc) (b : option slice) (s : St) (n : nat)
         (pre post : list event) (p : slice) (d : list byte) (rn : Z)
         (er : option error),
    log_after n ctx src dst b cb s = pre ++ EvRead p d rn er :: post ->
    Z.of_nat (cap p) < rn ->
    post = [] /\
    forall fuel, (n <= fuel)%nat ->
      OneWayLinkSpec fuel ctx src dst b cb s
      = Some (Crashed (replay src dst (pre ++ [EvRead p d rn er]) s)
                      (pre ++ [EvRead p d rn er])).
Proof.
  intros St ctx src dst cb b s n pre post p d rn er T Hrn.
  unfold log_after in T.
  destruct (read_iteration ctx src dst cb _ _ _ _ _ _ _ _ _ T)
    as (k & s0 & f0 & s1 & st1 & rest & Hk & Hr & Ht & Hp & Hd & Hn & He & Hb & Tl & _ & Hstop).
  subst p d rn er pre.
  destruct (loop_body_cases ctx src dst cb s0 f0) as [[Hle E]|[[_ E]|[[_ Hle] E]]];
    try lia.
  rewrite E in Hb. injection Hb as <- <-.
  destruct (Hstop I) as [-> Hrun]. rewrite Tl in T. simpl in T.
  rewrite app_nil_r in T. apply app_inv_head in T. injection T as <-.
  split; [reflexivity|]. intros fuel Hfuel.
  apply (crashed_outcome ctx src dst cb b s _ n _ Hrun fuel Hfuel).
Qed.

(** X6. A [Read] that reports no data and an error ends the copy at once:
    it is the last call, and the call returns that error - or no error when
    it is end-of-input - with the count of the writes made before. *)
Theorem read_error_ends_the_copy :
  forall (St : Type) (ctx : option Ctx) (src : Reader St) (dst : Writer St)
         (cb : option callbackFunc) (b : option slice) (s : St) (n : nat)
         (pre post : list event) (p : slice) (d : list byte) (rn : Z) (e : error),
    log_after n ctx src dst b cb s = pre ++ EvRead p d rn (Some e) :: post ->
    rn <= 0 ->
    post = [] /\
    forall fuel, (n <= fuel)%nat ->
      OneWayLinkSpec fuel ctx src dst b cb s
      = Some (Finished (replay src dst (pre ++ [EvRead p d rn (Some e)]) s)
                       (wrap64 (total_written pre))
                       (if is_EOF e then None else Some e)
                       (pre ++ [EvRead p d rn (Some e)])).
Proof.
  intros St ctx src dst cb b s n pre post p d rn e T Hrn.
  unfold log_after in T.
  destruct (read_iteration ctx src dst cb _ _ _ _ _ _ _ _ _ T)
    as (k & s0 & f0 & s1 & st1 & rest & Hk & Hr & Ht & Hp & Hd & Hn & He & Hb & Tl & _ & Hstop).
  subst p d rn pre.
  destruct (loop_body_cases ctx src dst cb s0 f0) as [[_ E]|[[Hgt E]|[[Hpos _] E]]];
    try lia.
  rewrite E, He in Hb. simpl in Hb. injection Hb as <- <-.
  destruct (Hstop I) as [-> Hrun]. rewrite Tl in T. simpl in T.
  rewrite app_nil_r in T. apply app_inv_head in T. injection T as _ <-.
  split; [reflexivity|]. intros fuel Hfuel.
  rewrite (returned_outcome ctx src dst cb b s _ n _ _ Hrun fuel Hfuel).
  simpl. rewrite He, total_written_app. simpl. rewrite Z.add_0_r. reflexivity.
Qed.

(** X7. A [Read] that reports data together with an error other than
    end-of-input: the data is transformed and offered to [Write], no
    further call is made, and the call returns the write's error if it
    reports one, [io.ErrShortWrite] if the count written differs from the
    count read, and the read's error otherwise. *)
Theorem read_error_after_its_data :
  forall (St : Type) (ctx : option Ctx) (src : Reader St) (dst : Writer St)
         (cb : option callbackFunc) (b : option slice) (s : St) (n : nat)
         (pre post : list event) (p : slice) (d : list byte) (rn : Z) (e : error),
    log_after n ctx src dst b cb s = pre ++ EvRead p d rn (Some e) :: post ->
    0 < rn <= Z.of_nat (cap p) ->
    is_EOF e = false ->
    exists wn ew,
      post = [EvWrite (apply_cb cb (firstn (Z.to_nat rn) (arr (store d p)))) wn ew]
      /\ forall fuel, (n <= fuel)%nat ->
           OneWayLinkSpec fuel ctx src dst b cb s
           = Some (Finished
                     (replay src dst (pre ++ EvRead p d rn (Some e) :: post) s)
                     (add64 (wrap64 (total_written pre)) (Z.max 0 wn))
                     match ew with
                     | Some e' => Some e'
                     | None => if wn =? rn then Some e else Some ErrShortWrite
                     end
                     (pre ++ EvRead p d rn (Some e) :: post)).
Proof.
  intros St ctx src dst cb b s n pre post p d rn e T Hrn Hneof.
  unfold log_after in T.
  destruct (read_iteration ctx src dst cb _ _ _ _ _ _ _ _ _ T)
    as (k & s0 & f0 & s1 & st1 & rest & Hk & Hr & Ht & Hp & Hd & Hn & He & Hb & Tl & _ & Hstop).
  subst p d rn pre.
  destruct (loop_body_cases ctx src dst cb s0 f0) as [[Hle E]|[[Hgt E]|[_ E]]];
    try lia.
  cbv zeta in E. rewrite E in Hb. clear E.
  set (tbuf := apply_cb cb _) in *. set (w := Write dst _ tbuf) in *.
  set (f2 := wrote (read_into f0 (Read src s0 (buf f0))) tbuf w) in *.
  assert (Hst : write_exit f2 w (r_n (Read src s0 (buf f0))) (r_err (Read src s0 (buf f0)))
                = Return match w_err w with
                         | Some e' => Some e'
                         | None => if w_n w =? r_n (Read src s0 (buf f0))
                                   then Some e else Some ErrShortWrite
                         end f2).
  { unfold write_exit. rewrite He. destruct (w_err w); [reflexivity|].
    destruct (w_n w =? _); simpl; [rewrite Hneof|]; reflexivity. }
  rewrite Hst in Hb. injection Hb as <- <-.
  destruct (Hstop I) as [-> Hrun]. rewrite Tl in T. subst f2. simpl in T.
  rewrite app_nil_r, <- app_assoc in T. apply app_inv_head in T. simpl in T.
  injection T as _ Hpost.
  exists (w_n w), (w_err w). split; [symmetry; exact Hpost|].
  intros fuel Hfuel.
  rewrite (returned_outcome ctx src dst cb b s _ n _ _ Hrun fuel Hfuel).
  simpl. rewrite <- Hpost, He, <- app_assoc. simpl.
  rewrite !total_written_app. simpl.
  unfold add64. rewrite wrap64_add_l. do 3 f_equal. lia.
Qed.

(** X8. When the chunk offered has as many bytes as were read (no transform,
    or one that keeps the length), a [Write] that reports no error and a
    count other than the chunk's length ends the copy with
    [io.ErrShortWrite]: it is the last call, and its count, if positive, is
    in the count returned. *)
Theorem short_write_of_same_length_chunk :
  forall (St : Type) (ctx : option Ctx) (src : Reader St) (dst : Writer St)
         (cb : option callbackFunc) (b : option slice) (s : St) (n : nat)
         (pre post : list event) (p : slice) (d : list byte) (rn : Z)
         (er : option error) (q : list byte) (wn : Z),
    log_after n ctx src dst b cb s
    = pre ++ EvRead p d rn er :: EvWrite q wn None :: post ->
    Z.of_nat (length q) = rn ->
    wn <> Z.of_nat (length q) ->
    post = [] /\
    forall fuel, (n <= fuel)%nat ->
      OneWayLinkSpec fuel ctx src dst b cb s
      = Some (Finished
                (replay src dst (pre ++ [EvRead p d rn er; EvWrite q wn None]) s)
                (add64 (wrap64 (total_written pre)) (Z.max 0 wn))
                (Some ErrShortWrite)
                (pre ++ [EvRead p d rn er; EvWrite q wn None])).
Proof.
  intros St ctx src dst cb b s n pre post p d rn er q wn T Hlen Hwn.
  unfold log_after in T.
  destruct (read_iteration ctx src dst cb _ _ _ _ _ _ _ _ _ T)
    as (k & s0 & f0 & s1 & st1 & rest & Hk & Hr & Ht & Hp & Hd & Hn & He & Hb & Tl & Hrest & Hstop).
  subst p d er pre.
  destruct (loop_body_cases ctx src dst cb s0 f0) as [[_ E]|[[_ E]|[_ E]]];
    cbv zeta in E; rewrite E in Hb; clear E; injection Hb as <- <-.
  - exfalso. rewrite Tl, frame_of_finish in T. simpl in T.
    rewrite <- app_assoc in T. apply app_inv_head in T. simpl in T.
    injection T as T. subst rest. exact Hrest.
  - exfalso. rewrite Tl in T. simpl in T.
    rewrite <- app_assoc in T. apply app_inv_head in T. simpl in T.
    injection T as T. subst rest. exact Hrest.
  - set (tbuf := apply_cb cb _) in *. set (w := Write dst _ tbuf) in *.
    set (f2 := wrote (read_into f0 (Read src s0 (buf f0))) tbuf w) in *.
    rewrite Tl, frame_of_write_exit in T. subst f2. simpl in T.
    rewrite <- !app_assoc in T. apply app_inv_head in T. cbn [app] in T.
    apply cons_eq in T as [_ T]. apply cons_eq in T as [Hev Hpost].
    injection Hev as Hq Hwn' Hew.
    assert (Hst : write_exit (wrote (read_into f0 (Read src s0 (buf f0))) tbuf w) w
                             (r_n (Read src s0 (buf f0))) (r_err (Read src s0 (buf f0)))
                  = Return (Some ErrShortWrite)
                           (wrote (read_into f0 (Read src s0 (buf f0))) tbuf w)).
    { unfold write_exit. rewrite Hew.
      replace (w_n w =? r_n (Read src s0 (buf f0))) with false; [reflexivity|].
      symmetry. apply Z.eqb_neq. lia. }
    rewrite Hst in Hstop. destruct (Hstop I) as [-> Hrun]. subst post.
    split; [reflexivity|]. intros fuel Hfuel.
    rewrite (returned_outcome ctx src dst cb b s _ n _ _ Hrun fuel Hfuel).
    simpl. rewrite <- !app_assoc. simpl. rewrite Hq, Hwn', Hew, Hn.
    rewrite !total_written_app. simpl.
    unfold add64. rewrite wrap64_add_l. do 3 f_equal. lia.
Qed.

(** ** A source that never delivers *)

Section Spin.
Context {St : Type}.
Variable ctx : option Ctx.
Variable src : Reader St.
Variable dst : Writer St.
Variable cb : option callbackFunc.
Variable b : option slice.
Variable good : St -> Prop.

(** Every [Read] given a slice shaped like the buffer reports no data and
    no error. *)
Hypothesis source_idle :
  forall s p,
    good s -> len p = len (buf_or_default b) -> cap p = cap (buf_or_default b) ->
    good (r_world (Read src s p))
    /\ r_n (Read src s p) <= 0
    /\ r_err (Read src s p) = None.

Lemma run_idle (n : nat) :
  forall s f,
    good s ->
    len (buf f) = len (buf_or_default b) -> cap (buf f) = cap (buf_or_default b) ->
    exists s' f' evs,
      run ctx src dst cb n s f = (s', Continue f')
      /\ trace f' = trace f ++ evs
      /\ chunks_offered evs = []
      /\ length evs = n.
Proof.
  induction n as [|n IH]; intros s f Hs Hl Hc; simpl.
  - exists s, f, []. rewrite app_nil_r. auto.
  - destruct (source_idle s (buf f) Hs Hl Hc) as (Hs1 & Hrn & Her).
    destruct (loop_body_cases ctx src dst cb s f) as [[_ E]|[[Hgt E]|[[Hpos _] E]]];
      try lia.
    rewrite E, Her. simpl.
    destruct (IH (r_world (Read src s (buf f))) (read_into f (Read src s (buf f))) Hs1)
      as (s' & f' & evs & HR & T & Hch & Hlen).
    { exact Hl. }
    { simpl. rewrite cap_store. exact Hc. }
    exists s', f', (EvRead (buf f) (r_data (Read src s (buf f)))
                           (r_n (Read src s (buf f))) None :: evs).
    split; [exact HR|]. simpl in T. rewrite Her in T. rewrite T, <- app_assoc.
    simpl. auto.
Qed.

(** X11. If every [Read] reports no data and no error, the copy never
    returns and never writes: after any number of iterations it is still
    running, having made that many calls, none of them a [Write]. *)
Theorem idle_source_spins :
  forall (fuel : nat) (s : St),
    good s ->
    OneWayLinkSpec fuel ctx src dst b cb s = None
    /\ chunks_offered (log_after fuel ctx src dst b cb s) = []
    /\ length (log_after fuel ctx src dst b cb s) = fuel.
Proof.
  intros fuel s Hs.
  destruct (run_idle fuel s (init_frame (buf_or_default b)) Hs eq_refl eq_refl)
    as (s' & f' & evs & HR & T & Hch & Hlen).
  unfold OneWayLinkSpec, log_after. rewrite HR. simpl in *. rewrite T. auto.
Qed.
End Spin.

(** ** Counts within the buffer *)

Section InBounds.
Context {St : Type}.
Variable ctx : option Ctx.
Variable src : Reader St.
Variable dst : Writer St.
Variable cb : option callbackFunc.
Variable b : option slice.

(** No [Read] given a slice shaped like the buffer reports more bytes than
    the slice's capacity. *)
Hypothesis counts_within_capacity :
  forall s p,
    len p = len (buf_or_default b) -> cap p = cap (buf_or_default b) ->
    r_n (Read src s p) <= Z.of_nat (cap p).

Lemma run_no_panic (n : nat) :
  forall s f,
    len (buf f) = len (buf_or_default b) -> cap (buf f) = cap (buf_or_default b) ->
    forall f', snd (run ctx src dst cb n s f) <> Panic f'.
Proof.
  induction n as [|n IH]; intros s f Hl Hc f'; simpl; [discriminate|].
  pose proof (counts_within_capacity s (buf f) Hl Hc) as Hrn.
  assert (Hl1 : len (buf (read_into f (Read src s (buf f)))) = len (buf_or_default b))
    by exact Hl.
  assert (Hc1 : cap (buf (read_into f (Read src s (buf f)))) = cap (buf_or_default b))
    by (simpl; rewrite cap_store; exact Hc).
  destruct (loop_body_cases ctx src dst cb s f) as [[_ E]|[[Hgt E]|[_ E]]];
    try lia; cbv zeta in E; rewrite E; clear E.
  - destruct (r_err (Read src s (buf f))); simpl; [discriminate|].
    apply IH; assumption.
  - unfold write_exit.
    destruct (w_err _); simpl; [discriminate|].
    destruct (negb _); simpl; [discriminate|].
    destruct (r_err (Read src s (buf f))); simpl; [discriminate|].
    apply IH; assumption.
Qed.

(** X10. If no [Read] reports more bytes than the capacity of the slice it
    is given, [OneWayLinkSpec] never panics. *)
Theorem no_panic_within_capacity :
  forall (fuel : nat) (s s' : St) (tr : list event),
    OneWayLinkSpec fuel ctx src dst b cb s <> Some (Crashed s' tr).
Proof.
  intros fuel s s' tr. unfold OneWayLinkSpec.
  pose proof (run_no_panic fuel s (init_frame (buf_or_default b)) eq_refl eq_refl) as H.
  destruct (run ctx src dst cb fuel s (init_frame (buf_or_default b))) as [s1 [f|e f|f]];
    simpl in *; try discriminate.
  exfalso. apply (H f). reflexivity.
Qed.
End InBounds.

(** ** Chunks read and chunks offered *)

Section Chunks.
Context {St : Type}.
Variable ctx : option Ctx.
Variable src : Reader St.
Variable dst : Writer St.
Variable cb : option callbackFunc.

Lemma loop_body_chunks (s s' : St) (f : frame) (st : status) :
  loop_body ctx src dst cb s f = (s', st) ->
  exists evs, trace (frame_of st) = trace f ++ evs
              /\ chunks_offered evs = map (apply_cb cb) (chunks_read evs).
Proof.
  intros H.
  destruct (loop_body_cases ctx src dst cb s f) as [[Hle E]|[[Hgt E]|[Hin E]]];
    cbv zeta in E; rewrite E in H; clear E; inversion H; subst; clear H.
  - rewrite frame_of_finish. eexists. split; [reflexivity|]. simpl.
    replace (0 <? r_n (Read src s (buf f))) with false; [reflexivity|].
    symmetry. apply Z.ltb_ge. lia.
  - eexists. split; [reflexivity|]. simpl.
    replace (r_n (Read src s (buf f)) <=? Z.of_nat (cap (buf f))) with false;
      [rewrite andb_false_r; reflexivity|].
    symmetry. apply Z.leb_gt. lia.
  - rewrite frame_of_write_exit. simpl. rewrite <- app_assoc.
    eexists. split; [reflexivity|]. simpl.
    replace (0 <? r_n (Read src s (buf f))) with true
      by (symmetry; apply Z.ltb_lt; lia).
    replace (r_n (Read src s (buf f)) <=? Z.of_nat (cap (buf f))) with true
      by (symmetry; apply Z.leb_le; lia).
    reflexivity.
Qed.

Lemma run_chunks (n : nat) :
  forall s f s' st,
    run ctx src dst cb n s f = (s', st) ->
    exists evs, trace (frame_of st) = trace f ++ evs
                /\ chunks_offered evs = map (apply_cb cb) (chunks_read evs).
Proof.
  induction n as [|n IH]; intros s f s' st H; simpl in H.
  - inversion H; subst. exists []. simpl. rewrite app_nil_r. auto.
  - destruct (loop_body ctx src dst cb s f) as [s1 st1] eqn:E.
    destruct (loop_body_chunks _ _ _ _ E) as (evs1 & T1 & C1).
    destruct st1 as [f1|e f1|f1];
      try (inversion H; subst; exists evs1; auto; fail).
    destruct (IH _ _ _ _ H) as (evs2 & T2 & C2).
    exists (evs1 ++ evs2). simpl in T1. rewrite T2, T1, app_assoc.
    split; [reflexivity|].
    rewrite chunks_offered_app, chunks_read_app, map_app, C1, C2. reflexivity.
Qed.
End Chunks.

(** X1. At any point of a run, the chunks offered to [Write] are the
    transforms of the chunks read, one [Write] for each [Read] that
    delivered data, in the same order: nothing is merged, split, skipped,
    repeated or reordered. *)
Theorem chunks_offered_are_chunks_read :
  forall (St : Type) (n : nat) (ctx : option Ctx) (src : Reader St) (dst : Writer St)
         (b : option slice) (cb : option callbackFunc) (s : St),
    chunks_offered (log_after n ctx src dst b cb s)
    = map (apply_cb cb) (chunks_read (log_after n ctx src dst b cb s)).
Proof.
  intros St n ctx src dst b cb s. unfold log_after.
  destruct (run ctx src dst cb n s (init_frame (buf_or_default b))) as [s' st] eqn:HR.
  destruct (run_chunks ctx src dst cb n _ _ _ _ HR) as (evs & T & C).
  simpl in T. simpl. rewrite T. exact C.
Qed.

(** Each chunk cut from a buffer that is reused has between 1 byte and the
    buffer's capacity. *)
Lemma chunks_read_sized (tr : list event) :
  forall b, reads_reuse b tr ->
            Forall (fun c => (1 <= length c <= cap b)%nat) (chunks_read tr).
Proof.
  induction tr as [|[p d rn er|p wn ew] tr IH]; cbn [chunks_read reads_reuse]; intros b H.
  - constructor.
  - destruct H as [-> H].
    specialize (IH _ H). rewrite cap_store in IH.
    destruct ((0 <? rn) && (rn <=? Z.of_nat (cap b))) eqn:E; [|exact IH].
    apply andb_true_iff in E. destruct E as [E1 E2].
    apply Z.ltb_lt in E1. apply Z.leb_le in E2.
    constructor; [|exact IH].
    rewrite length_firstn. fold (cap (store d b)). rewrite cap_store. lia.
  - auto.
Qed.

(** X2. Every chunk handed to the transform has at least one byte and at
    most as many as the buffer's capacity; so, with no callback, has every
    chunk offered to [Write] - at most 1024 bytes for [OneWayLink]. *)
Theorem chunk_sizes :
  forall (St : Type) (n : nat) (ctx : option Ctx) (src : Reader St) (dst : Writer St)
         (b : option slice) (cb : option callbackFunc) (s : St),
    Forall (fun c => (1 <= length c <= cap (buf_or_default b))%nat)
           (chunks_read (log_after n ctx src dst b cb s))
    /\ Forall (fun c => (1 <= length c <= cap (buf_or_default b))%nat)
              (chunks_offered (log_after n ctx src dst b None s))
    /\ Forall (fun c => (1 <= length c <= 1024)%nat)
              (chunks_offered (log_after n ctx src dst None None s)).
Proof.
  intros St n ctx src dst b cb s.
  assert (G : forall b' cb',
             Forall (fun c => (1 <= length c <= cap (buf_or_default b'))%nat)
                    (chunks_read (log_after n ctx src dst b' cb' s))).
  { intros b' cb'. unfold log_after.
    destruct (run ctx src dst cb' n s (init_frame (buf_or_default b'))) as [s' st] eqn:HR.
    destruct (run_extends ctx src dst cb' n _ _ _ _ HR) as (evs & T & _ & _ & _ & R & _).
    simpl in T, R. simpl. rewrite T. apply chunks_read_sized. exact R. }
  assert (G' : forall b',
             Forall (fun c => (1 <= length c <= cap (buf_or_default b'))%nat)
                    (chunks_offered (log_after n ctx src dst b' None s))).
  { intros b'. specialize (G b' None). unfold log_after in *.
    destruct (run ctx src dst None n s (init_frame (buf_or_default b'))) as [s' st] eqn:HR.
    destruct (run_chunks ctx src dst None n _ _ _ _ HR) as (evs & T & C).
    simpl in T, G. simpl. rewrite T in *. rewrite C.
    simpl. rewrite map_id. exact G. }
  split; [apply G|]. split; [apply G'|].
  specialize (G' None). simpl in G'. rewrite cap_make in G'. exact G'.
Qed.

(** ** How a call ends *)

Section Endings.
Context {St : Type}.
Variable ctx : option Ctx.
Variable src : Reader St.
Variable dst : Writer St.
Variable cb : option callbackFunc.

(** While the loop goes on, every byte counted as read has been counted as
    written. *)
Lemma loop_body_balanced (s s' : St) (f f' : frame) :
  total_written (trace f) = total_read (trace f) ->
  loop_body ctx src dst cb s f = (s', Continue f') ->
  total_written (trace f') = total_read (trace f').
Proof.
  intros Hb H.
  destruct (loop_body_cases ctx src dst cb s f) as [[Hle E]|[[_ E]|[Hin E]]];
    cbv zeta in E; rewrite E in H; clear E.
  - unfold finish in H. destruct (r_err _); inversion H; subst. simpl.
    rewrite total_written_app, total_read_app. simpl.
    lia.
  - discriminate H.
  - set (w := Write dst _ _) in *. unfold write_exit, finish in H.
    destruct (w_err w); [discriminate H|].
    destruct (w_n w =? _) eqn:Ew; simpl in H; [|discriminate H].
    apply Z.eqb_eq in Ew.
    destruct (r_err _); inversion H; subst. simpl.
    rewrite !total_written_app, !total_read_app. simpl.
    rewrite Ew. lia.
Qed.

Lemma run_balanced (n : nat) :
  forall s f s' f',
    total_written (trace f) = total_read (trace f) ->
    run ctx src dst cb n s f = (s', Continue f') ->
    total_written (trace f') = total_read (trace f').
Proof.
  induction n as [|n IH]; intros s f s' f' Hb H; simpl in H.
  - inversion H; subst. exact Hb.
  - destruct (loop_body ctx src dst cb s f) as [s1 [f1|e f1|f1]] eqn:E; try discriminate.
    eapply IH; [|exact H]. eapply loop_body_balanced; eauto.
Qed.

(** The iteration in which a call returned, and the state of the log when
    it began. *)
Lemma last_iteration (b : option slice) (s s' : St) (fuel : nat) (n : Z)
      (err : option error) (tr : list event) :
  OneWayLinkSpec fuel ctx src dst b cb s = Some (Finished s' n err tr) ->
  exists s0 f0 f,
    loop_body ctx src dst cb s0 f0 = (s', Return err f)
    /\ tr = trace f /\ n = written f
    /\ quiet (trace f0) /\ accounted f0
    /\ total_written (trace f0) = total_read (trace f0).
Proof.
  unfold OneWayLinkSpec. intros H.
  destruct (run ctx src dst cb fuel s (init_frame (buf_or_default b))) as [s1 [f|e f|f]] eqn:HR;
    try discriminate.
  injection H as <- <- <- <-.
  destruct (run_last ctx src dst cb fuel _ _ _ _ HR I) as (k & s0 & f0 & _ & Hk & Hb).
  destruct (run_Continue ctx src dst cb k _ _ _ _ (quiet_init _) (accounted_init _) Hk)
    as [Hq Ha].
  pose proof (run_balanced k s (init_frame (buf_or_default b)) s0 f0 eq_refl Hk) as Hbal.
  exists s0, f0, f. auto 10.
Qed.
End Endings.

(** X3. Whatever the error, the byte count returned is the sum of the
    positive counts the [Write] calls reported, as an [int64]; a call that
    made no [Write] returns 0. *)
Theorem count_is_sum_of_write_counts :
  forall (St : Type) (fuel : nat) (ctx : option Ctx) (src : Reader St)
         (dst : Writer St) (b : option slice) (cb : option callbackFunc)
         (s s' : St) (n : Z) (err : option error) (tr : list event),
    OneWayLinkSpec fuel ctx src dst b cb s = Some (Finished s' n err tr) ->
    n = wrap64 (total_written tr)
    /\ (chunks_offered tr = [] -> n = 0).
Proof.
  intros St fuel ctx src dst b cb s s' n err tr H.
  assert (Hn : n = wrap64 (total_written tr)).
  { unfold OneWayLinkSpec in H.
    destruct (run ctx src dst cb fuel s (init_frame (buf_or_default b)))
      as [s1 [f|e f|f]] eqn:HR; try discriminate.
    injection H as <- <- <- <-.
    exact (run_accounted ctx src dst cb fuel _ _ _ _ (accounted_init _) HR). }
  split; [exact Hn|]. intros Hno. rewrite Hn.
  assert (Hz : forall l, chunks_offered l = [] -> total_written l = 0).
  { induction l as [|[p d rn er|p wn ew] l IH]; simpl; auto. discriminate. }
  rewrite (Hz tr Hno). reflexivity.
Qed.

(** X4. A call returns no error only when its last [Read] reported
    end-of-input, no earlier call reported an error, and every chunk read
    was counted as written in full; the count returned is then the number
    of bytes the [Read] calls reported, as an [int64]. *)
Theorem clean_return_means_end_of_input :
  forall (St : Type) (fuel : nat) (ctx : option Ctx) (src : Reader St)
         (dst : Writer St) (b : option slice) (cb : option callbackFunc)
         (s s' : St) (n : Z) (tr : list event),
    OneWayLinkSpec fuel ctx src dst b cb s = Some (Finished s' n None tr) ->
    (exists pre p d rn,
        quiet pre
        /\ ((rn <= 0 /\ tr = pre ++ [EvRead p d rn (Some EOF)])
            \/ (0 < rn /\ exists q, tr = pre ++ [EvRead p d rn (Some EOF); EvWrite q rn None])))
    /\ total_written tr = total_read tr
    /\ n = wrap64 (total_read tr).
Proof.
  intros St fuel ctx src dst b cb s s' n tr H.
  destruct (last_iteration ctx src dst cb _ _ _ _ _ _ _ H)
    as (s0 & f0 & f & Hb & -> & -> & Hq & Ha & Hbal).
  unfold accounted in Ha.
  destruct (loop_body_cases ctx src dst cb s0 f0) as [[Hle E]|[[_ E]|[Hin E]]];
    cbv zeta in E; rewrite E in Hb; clear E.
  - unfold finish in Hb. destruct (r_err _) as [e|] eqn:Her; [|discriminate Hb].
    destruct e; simpl in Hb; try discriminate Hb.
    injection Hb as _ <-. simpl. rewrite Her.
    rewrite total_written_app, total_read_app. simpl.
    split; [|split].
    + exists (trace f0), (buf f0), (r_data (Read src s0 (buf f0))), (r_n (Read src s0 (buf f0))).
      split; [exact Hq|]. left. auto.
    + lia.
    + rewrite Ha. f_equal. lia.
  - discriminate Hb.
  - set (w := Write dst _ _) in *. unfold write_exit, finish in Hb.
    destruct (w_err w) eqn:Hew; [discriminate Hb|].
    destruct (w_n w =? _) eqn:Ew; simpl in Hb; [|discriminate Hb].
    apply Z.eqb_eq in Ew.
    destruct (r_err _) as [e|] eqn:Her; [|discriminate Hb].
    destruct e; simpl in Hb; try discriminate Hb.
    injection Hb as _ <-. simpl. rewrite Her, Hew, Ew.
    rewrite <- !app_assoc, !total_written_app, !total_read_app. simpl.
    replace (0 <? r_n (Read src s0 (buf f0))) with true
      by (symmetry; apply Z.ltb_lt; lia).
    split; [|split].
    + exists (trace f0), (buf f0), (r_data (Read src s0 (buf f0))), (r_n (Read src s0 (buf f0))).
      split; [exact Hq|]. right. split; [lia|]. eexists. reflexivity.
    + lia.
    + unfold add64. rewrite Ha, wrap64_add_l. f_equal. lia.
Qed.

(** X5. Errors are passed on as they are: an error returned is the error
    the last [Write] reported, or the error (other than end-of-input) the
    last [Read] reported - alone or with data that was then written in
    full -, or [io.ErrShortWrite] after a last [Write] that reported no
    error and a count other than the count read. *)
Theorem error_returned_is_last_error :
  forall (St : Type) (fuel : nat) (ctx : option Ctx) (src : Reader St)
         (dst : Writer St) (b : option slice) (cb : option callbackFunc)
         (s s' : St) (n : Z) (e : error) (tr : list event),
    OneWayLinkSpec fuel ctx src dst b cb s = Some (Finished s' n (Some e) tr) ->
    (exists pre q wn, tr = pre ++ [EvWrite q wn (Some e)])
    \/ (is_EOF e = false
        /\ exists pre p d rn, tr = pre ++ [EvRead p d rn (Some e)])
    \/ (is_EOF e = false
        /\ exists pre p d rn q, tr = pre ++ [EvRead p d rn (Some e); EvWrite q rn None])
    \/ (e = ErrShortWrite
        /\ exists pre p d rn er q wn,
            tr = pre ++ [EvRead p d rn er; EvWrite q wn None] /\ wn <> rn).
Proof.
  intros St fuel ctx src dst b cb s s' n e tr H.
  destruct (last_iteration ctx src dst cb _ _ _ _ _ _ _ H)
    as (s0 & f0 & f & Hb & -> & -> & _).
  destruct (loop_body_cases ctx src dst cb s0 f0) as [[Hle E]|[[_ E]|[Hin E]]];
    cbv zeta in E; rewrite E in Hb; clear E.
  - unfold finish in Hb. destruct (r_err _) as [e0|] eqn:Her; [|discriminate Hb].
    apply pair_equal_spec in Hb as [_ Hb]. injection Hb as Herr Hf. subst f.
    destruct (is_EOF e0) eqn:Heof; [discriminate Herr|]. injection Herr as ->.
    simpl. rewrite Her.
    right. left. split; [exact Heof|]. do 4 eexists. reflexivity.
  - discriminate Hb.
  - set (w := Write dst _ _) in *. unfold write_exit, finish in Hb.
    destruct (w_err w) as [ew|] eqn:Hew.
    + apply pair_equal_spec in Hb as [_ Hb]. injection Hb as Herr Hf. subst f ew.
      simpl. rewrite Hew. left. do 3 eexists. reflexivity.
    + destruct (w_n w =? _) eqn:Ew; simpl in Hb.
      * apply Z.eqb_eq in Ew.
        destruct (r_err _) as [e0|] eqn:Her; [|discriminate Hb].
        apply pair_equal_spec in Hb as [_ Hb]. injection Hb as Herr Hf. subst f.
        destruct (is_EOF e0) eqn:Heof; [discriminate Herr|]. injection Herr as ->.
        simpl. rewrite Her, Hew, Ew, <- app_assoc.
        right. right. left. split; [exact Heof|]. do 5 eexists. simpl. reflexivity.
      * apply Z.eqb_neq in Ew.
        apply pair_equal_spec in Hb as [_ Hb]. injection Hb as Herr Hf. subst f e.
        simpl. rewrite Hew, <- app_assoc.
        right. right. right. split; [reflexivity|].
        do 7 eexists. split; [simpl; reflexivity|]. exact Ew.
Qed.

Section RelayMore.
Context {St : Type}.
Variable ctx : option Ctx.
Variables h1 h2 : ReadWriteCloser St.
Variables cb1 cb2 : option callbackFunc.

Lemma copy_step_world (src : Reader St) (dst : Writer St) (cb : option callbackFunc)
      (s : St) (pc : flow_pc) :
  fst (copy_step ctx src dst cb s pc)
  = match pc with
    | PRead f => r_world (Read src s (buf f))
    | PWrite f tbuf _ _ => w_world (Write dst s tbuf)
    | _ => s
    end.
Proof.
  destruct pc; try reflexivity.
  unfold copy_step, do_read.
  rewrite check_ctx_Next.
  destruct (0 <? _); [|reflexivity].
  destruct (slice_to _ _); reflexivity.
Qed.

Lemma copy_step_pc (src : Reader St) (dst : Writer St) (cb : option callbackFunc)
      (s : St) (pc : flow_pc) :
  copying pc ->
  closing (snd (copy_step ctx src dst cb s pc)) = false
  /\ (copying (snd (copy_step ctx src dst cb s pc))
      \/ (exists w e, snd (copy_step ctx src dst cb s pc) = PAssign w e)
      \/ snd (copy_step ctx src dst cb s pc) = PPanic).
Proof.
  destruct pc; try (simpl; contradiction); intros _; unfold copy_step.
  - destruct (do_read ctx src cb s f) as [s1 ar].
    destruct ar as [f1|f1|f1 tbuf rn er|f1 er]; simpl; eauto 6.
    destruct er; simpl; eauto 6.
  - destruct (do_write dst s f tbuf rn er) as [s2 [f2|e f2|f2]]; simpl; eauto 6.
Qed.






End RelayMore.


Section RelayWorld.
Context {St : Type}.
Variable ctx : option Ctx.
Variables h1 h2 : ReadWriteCloser St.
Variables cb1 cb2 : option callbackFunc.


(** What a step of the caller leaves alone, and what a step of the
    background flow leaves alone. *)
Lemma step_caller_g_pc (c : config St) : g_pc (step_caller ctx h1 h2 cb2 c) = g_pc c.
Proof.
  unfold step_caller.
  destruct (m_pc c); try reflexivity;
    try (destruct (copy_step _ _ _ _ _ _); reflexivity).
  destruct (sh_exit (sh c)); reflexivity.
Qed.

Lemma step_background_m_pc (c : config St) : m_pc (step_background ctx h1 h2 cb1 c) = m_pc c.
Proof.
  unfold step_background.
  destruct (g_pc c); try reflexivity;
    destruct (copy_step _ _ _ _ _ _); reflexivity.
Qed.

(** The world after a step, by the position of the flow that moved. *)
Lemma step_background_world (c : config St) :
  sh_world (sh (step_background ctx h1 h2 cb1 c))
  = match g_pc c with
    | PRead f => r_world (rwc_Read h1 (sh_world (sh c)) (buf f))
    | PWrite f tbuf _ _ => w_world (rwc_Write h2 (sh_world (sh c)) tbuf)
    | PClose1 => rwc_Close h1 (sh_world (sh c))
    | PClose2 => rwc_Close h2 (sh_world (sh c))
    | _ => sh_world (sh c)
    end.
Proof.
  destruct (g_pc c) eqn:Eg.
  1-2: rewrite step_background_copy by (rewrite Eg; exact I);
    cbn [sh set_world sh_world]; rewrite copy_step_world, Eg; reflexivity.
  all: unfold step_background; rewrite Eg; reflexivity.
Qed.

Lemma step_caller_world (c : config St) :
  sh_world (sh (step_caller ctx h1 h2 cb2 c))
  = match m_pc c with
    | PRead f => r_world (rwc_Read h2 (sh_world (sh c)) (buf f))
    | PWrite f tbuf _ _ => w_world (rwc_Write h1 (sh_world (sh c)) tbuf)
    | PClose1 => rwc_Close h2 (sh_world (sh c))
    | PClose2 => rwc_Close h1 (sh_world (sh c))
    | _ => sh_world (sh c)
    end.
Proof.
  destruct (m_pc c) eqn:Em.
  1-2: rewrite step_caller_copy by (rewrite Em; exact I);
    cbn [sh set_world sh_world]; rewrite copy_step_world, Em; reflexivity.
  all: unfold step_caller; rewrite Em; try destruct (sh_exit (sh c)); reflexivity.
Qed.

(** Where a step of a flow takes it. *)
Lemma step_background_closing (c : config St) :
  closing (g_pc (step_background ctx h1 h2 cb1 c))
  = match g_pc c with
    | PClose1 => true
    | pc => closing pc
    end.
Proof.
  destruct (g_pc c) eqn:Eg.
  1-2: rewrite step_background_copy by (rewrite Eg; exact I);
    cbn [g_pc];
    apply (copy_step_pc ctx (as_Reader h1) (as_Writer h2) cb1 (sh_world (sh c)) (g_pc c));
    rewrite Eg; exact I.
  all: unfold step_background; rewrite Eg; try reflexivity.
  all: simpl; rewrite Eg; reflexivity.
Qed.

Lemma step_caller_closing (c : config St) :
  closing (m_pc (step_caller ctx h1 h2 cb2 c))
  = match m_pc c with
    | PClose1 => true
    | pc => closing pc
    end.
Proof.
  destruct (m_pc c) eqn:Em.
  1-2: rewrite step_caller_copy by (rewrite Em; exact I);
    cbn [m_pc];
    apply (copy_step_pc ctx (as_Reader h2) (as_Writer h1) cb2 (sh_world (sh c)) (m_pc c));
    rewrite Em; exact I.
  all: unfold step_caller; rewrite Em; try destruct (sh_exit (sh c)); try reflexivity.
  all: simpl; rewrite Em; reflexivity.
Qed.

Lemma step_background_closed_both (c : config St) :
  closed_both (g_pc (step_background ctx h1 h2 cb1 c))
  = match g_pc c with
    | PClose2 => true
    | pc => closed_both pc
    end.
Proof.
  destruct (g_pc c) eqn:Eg.
  1-2: rewrite step_background_copy by (rewrite Eg; exact I);
    cbn [g_pc];
    destruct (copy_step_pc ctx (as_Reader h1) (as_Writer h2) cb1 (sh_world (sh c)) (g_pc c))
      as [_ [H|[(w & e & H)|H]]]; try (rewrite Eg; exact I);
    [destruct (snd (copy_step _ _ _ _ _ _)); try contradiction; reflexivity
    | rewrite H; reflexivity | rewrite H; reflexivity].
  all: unfold step_background; rewrite Eg; try reflexivity.
  all: simpl; rewrite Eg; reflexivity.
Qed.

(** A lasting property of the world survives every step. *)
Lemma step_lasting (P : St -> Prop) (who : flow) (c : config St) :
  lasting h1 h2 P -> P (sh_world (sh c)) -> P (sh_world (sh (step ctx h1 h2 cb1 cb2 who c))).
Proof.
  intros (R1 & R2 & W1 & W2 & C1 & C2) H.
  unfold step. destruct (is_panic (g_pc c) || is_panic (m_pc c)); [exact H|].
  destruct who.
  - rewrite step_background_world. destruct (g_pc c); auto.
  - rewrite step_caller_world. destruct (m_pc c); auto.
Qed.

(** Once the background flow has closed an endpoint, what that [Close]
    established holds for good. *)
Lemma exec_closed (P1 P2 : St -> Prop) (sched : list flow) :
  lasting h1 h2 P1 -> lasting h1 h2 P2 ->
  (forall s, P1 (rwc_Close h1 s)) -> (forall s, P2 (rwc_Close h2 s)) ->
  forall c,
    (closing (g_pc c) = true -> P1 (sh_world (sh c))) ->
    (closed_both (g_pc c) = true -> P2 (sh_world (sh c))) ->
    (closing (g_pc (exec ctx h1 h2 cb1 cb2 sched c)) = true -> P1 (sh_world (sh (exec ctx h1 h2 cb1 cb2 sched c))))
    /\ (closed_both (g_pc (exec ctx h1 h2 cb1 cb2 sched c)) = true -> P2 (sh_world (sh (exec ctx h1 h2 cb1 cb2 sched c)))).
Proof.
  intros L1 L2 E1 E2.
  induction sched as [|who sched IH]; intros c H1 H2; simpl; [auto|].
  apply IH.
  - intros Hc. unfold step in *.
    destruct (is_panic (g_pc c) || is_panic (m_pc c)); [auto|].
    destruct who.
    + rewrite step_background_closing in Hc. rewrite step_background_world.
      destruct L1 as (R1 & R2 & W1 & W2 & C1 & C2).
      destruct (g_pc c); simpl in *; auto; discriminate.
    + rewrite step_caller_g_pc in Hc. rewrite step_caller_world.
      destruct L1 as (R1 & R2 & W1 & W2 & C1 & C2).
      destruct (m_pc c); auto.
  - intros Hc. unfold step in *.
    destruct (is_panic (g_pc c) || is_panic (m_pc c)); [auto|].
    destruct who.
    + rewrite step_background_closed_both in Hc. rewrite step_background_world.
      destruct L2 as (R1 & R2 & W1 & W2 & C1 & C2).
      destruct (g_pc c); simpl in *; auto; discriminate.
    + rewrite step_caller_g_pc in Hc. rewrite step_caller_world.
      destruct L2 as (R1 & R2 & W1 & W2 & C1 & C2).
      destruct (m_pc c); auto.
Qed.

(** As long as neither flow has made a [Close] call, the world is the one
    reads and writes made. *)
Lemma exec_not_closed {A : Type} (obs : St -> A) (a : A) (sched : list flow) :
  (forall s p, obs (r_world (rwc_Read h1 s p)) = obs s) ->
  (forall s p, obs (r_world (rwc_Read h2 s p)) = obs s) ->
  (forall s p, obs (w_world (rwc_Write h1 s p)) = obs s) ->
  (forall s p, obs (w_world (rwc_Write h2 s p)) = obs s) ->
  forall c,
    (closing (g_pc c) = false -> closing (m_pc c) = false -> obs (sh_world (sh c)) = a) ->
    closing (g_pc (exec ctx h1 h2 cb1 cb2 sched c)) = false ->
    closing (m_pc (exec ctx h1 h2 cb1 cb2 sched c)) = false ->
    obs (sh_world (sh (exec ctx h1 h2 cb1 cb2 sched c))) = a.
Proof.
  intros R1 R2 W1 W2.
  induction sched as [|who sched IH]; intros c H; simpl; [exact H|].
  apply IH. unfold step.
  destruct (is_panic (g_pc c) || is_panic (m_pc c)); [exact H|].
  destruct who.
  - rewrite step_background_closing, step_background_m_pc, step_background_world.
    intros Hg Hm.
    destruct (g_pc c); simpl in *; try discriminate;
      rewrite ?R1, ?W2; apply H; auto.
  - rewrite step_caller_closing, step_caller_g_pc, step_caller_world.
    intros Hg Hm.
    destruct (m_pc c); simpl in *; try discriminate;
      rewrite ?R2, ?W1; apply H; auto.
Qed.
End RelayWorld.

(** X13. Under every interleaving, when [TwoWayLinkSpec] returns both
    endpoints have been closed: whatever [h1.Close] establishes and no
    later call undoes holds of the world at return, and likewise for
    [h2.Close]. *)
Theorem relay_returns_with_both_closed :
  forall (St : Type) (P1 P2 : St -> Prop) (sched : list flow) (ctx : option Ctx)
         (h1 h2 : ReadWriteCloser St) (buf1 buf2 : option slice)
         (cb1 cb2 : option callbackFunc) (s : St)
         (q : Z * Z * option error * option error),
    lasting h1 h2 P1 -> lasting h1 h2 P2 ->
    (forall s, P1 (rwc_Close h1 s)) -> (forall s, P2 (rwc_Close h2 s)) ->
    TwoWayLinkSpec sched ctx h1 h2 buf1 buf2 cb1 cb2 s = Some q ->
    P1 (sh_world (sh (exec ctx h1 h2 cb1 cb2 sched (start buf1 buf2 s))))
    /\ P2 (sh_world (sh (exec ctx h1 h2 cb1 cb2 sched (start buf1 buf2 s)))).
Proof.
  intros St P1 P2 sched ctx h1 h2 buf1 buf2 cb1 cb2 s q L1 L2 E1 E2.
  unfold TwoWayLinkSpec, results.
  pose proof (exec_coherent ctx h1 h2 cb1 cb2 sched _ (start_coherent buf1 buf2 s))
    as (_ & _ & Hexit & Hend).
  destruct (exec_closed ctx h1 h2 cb1 cb2 P1 P2 sched L1 L2 E1 E2 (start buf1 buf2 s))
    as [C1 C2]; try (simpl; discriminate).
  destruct (m_pc (exec ctx h1 h2 cb1 cb2 sched (start buf1 buf2 s))) eqn:Em;
    try discriminate.
  intros _. specialize (Hexit (Hend eq_refl)).
  rewrite Hexit in C1, C2. auto.
Qed.

(** X14. Under every interleaving, no endpoint is closed before one of the
    two directions has ended: as long as neither flow has gone past its
    first [Close], whatever reads and writes leave unchanged is as it was
    at the start. *)
Theorem relay_closes_nothing_early :
  forall (St A : Type) (obs : St -> A) (sched : list flow) (ctx : option Ctx)
         (h1 h2 : ReadWriteCloser St) (buf1 buf2 : option slice)
         (cb1 cb2 : option callbackFunc) (s : St),
    (forall s p, obs (r_world (rwc_Read h1 s p)) = obs s) ->
    (forall s p, obs (r_world (rwc_Read h2 s p)) = obs s) ->
    (forall s p, obs (w_world (rwc_Write h1 s p)) = obs s) ->
    (forall s p, obs (w_world (rwc_Write h2 s p)) = obs s) ->
    closing (g_pc (exec ctx h1 h2 cb1 cb2 sched (start buf1 buf2 s))) = false ->
    closing (m_pc (exec ctx h1 h2 cb1 cb2 sched (start buf1 buf2 s))) = false ->
    obs (sh_world (sh (exec ctx h1 h2 cb1 cb2 sched (start buf1 buf2 s)))) = obs s.
Proof.
  intros St A obs sched ctx h1 h2 buf1 buf2 cb1 cb2 s R1 R2 W1 W2.
  apply (exec_not_closed ctx h1 h2 cb1 cb2 obs (obs s) sched R1 R2 W1 W2).
  reflexivity.
Qed.

Lemma conn_read_end_closed (e : Conn.end_state) (p : slice) :
  Conn.closed (fst (Conn.read_end e p)) = Conn.closed e.
Proof.
  unfold Conn.read_end. destruct (Conn.closed e) eqn:E; simpl; [exact E|].
  destruct (Conn.input e); simpl; first [exact E | reflexivity].
Qed.

Lemma conn_write_end_closed (e : Conn.end_state) (p : list byte) :
  Conn.closed (fst (Conn.write_end e p)) = Conn.closed e.
Proof.
  unfold Conn.write_end. destruct (Conn.closed e) eqn:E; simpl; [exact E|].
  destruct (Conn.broken e); simpl; [exact E|].
  destruct (Conn.room e) as [k|]; [destruct (k <? _)%nat|]; simpl;
    first [exact E | reflexivity].
Qed.

(** Reads and writes on either endpoint leave both closed flags alone. *)
Lemma conn_calls_keep_flags :
  (forall s p, Conn.closed_flags (r_world (rwc_Read Conn.h1 s p)) = Conn.closed_flags s)
  /\ (forall s p, Conn.closed_flags (r_world (rwc_Read Conn.h2 s p)) = Conn.closed_flags s)
  /\ (forall s p, Conn.closed_flags (w_world (rwc_Write Conn.h1 s p)) = Conn.closed_flags s)
  /\ (forall s p, Conn.closed_flags (w_world (rwc_Write Conn.h2 s p)) = Conn.closed_flags s).
Proof.
  unfold Conn.closed_flags. repeat split; intros [e1 e2] p; simpl.
  - pose proof (conn_read_end_closed e1 p) as H.
    destruct (Conn.read_end e1 p) as [e [[d n] er]]. simpl in *. rewrite H. reflexivity.
  - pose proof (conn_read_end_closed e2 p) as H.
    destruct (Conn.read_end e2 p) as [e [[d n] er]]. simpl in *. rewrite H. reflexivity.
  - pose proof (conn_write_end_closed e1 p) as H.
    destruct (Conn.write_end e1 p) as [e [n ew]]. simpl in *. rewrite H. reflexivity.
  - pose proof (conn_write_end_closed e2 p) as H.
    destruct (Conn.write_end e2 p) as [e [n ew]]. simpl in *. rewrite H. reflexivity.
Qed.

(** Being closed lasts. *)
Lemma conn_closed_lasts :
  lasting Conn.h1 Conn.h2 Runs.closed1 /\ lasting Conn.h1 Conn.h2 Runs.closed2.
Proof.
  destruct conn_calls_keep_flags as (R1 & R2 & W1 & W2).
  assert (K : forall s s', Conn.closed_flags s' = Conn.closed_flags s ->
                           (Runs.closed1 s -> Runs.closed1 s')
                           /\ (Runs.closed2 s -> Runs.closed2 s')).
  { unfold Conn.closed_flags, Runs.closed1, Runs.closed2.
    intros s s' F. injection F as F1 F2. split; congruence. }
  unfold lasting.
  split; (split; [|split; [|split; [|split; [|split]]]]).
  all: try (intros s p H; first [apply (K _ _ (R1 s p)) | apply (K _ _ (R2 s p))
                                | apply (K _ _ (W1 s p)) | apply (K _ _ (W2 s p))];
            exact H).
  all: intros [e1 e2] H; unfold Runs.closed1, Runs.closed2 in *; simpl in *; auto.
Qed.

(** Handed an empty slice, an open endpoint with pending input delivers
    nothing and reports no error. *)
Lemma conn_idle (s : Conn.world) (p : slice) :
  Runs.ready s -> len p = 0%nat ->
  Runs.ready (r_world (Read Conn.src s p))
  /\ r_n (Read Conn.src s p) <= 0
  /\ r_err (Read Conn.src s p) = None.
Proof.
  destruct s as [e1 e2]. unfold Runs.ready; simpl. intros [C1 Hin] Hp.
  unfold Conn.read_end. rewrite C1, Hp.
  destruct (Conn.input e1) as [|x l] eqn:Ein; [contradiction|]. simpl.
  repeat split; auto; try lia; try discriminate.
Qed.

(** An endpoint never reports more bytes than the length of the slice. *)
Lemma conn_counts (s : Conn.world) (p : slice) :
  r_n (Read Conn.src s p) <= Z.of_nat (len p).
Proof.
  destruct s as [e1 e2]. simpl. unfold Conn.read_end.
  destruct (Conn.closed e1); simpl; [lia|].
  destruct (Conn.input e1); simpl; lia.
Qed.

(** ** The further theorems at concrete inputs *)

Lemma count_is_sum_of_write_counts_witness :
  OneWayLinkSpec 5 None Conn.src Conn.dst (Some (make 4)) None Runs.bounded
  = Some (Finished (replay Conn.src Conn.dst Runs.bounded_log Runs.bounded)
                   6 (Some Conn.ErrFull) Runs.bounded_log)
  /\ 6 = wrap64 (total_written Runs.bounded_log)
  /\ (chunks_offered Runs.bounded_log = [] -> 6 = 0).
Proof.
  assert (H : OneWayLinkSpec 5 None Conn.src Conn.dst (Some (make 4)) None Runs.bounded
              = Some (Finished (replay Conn.src Conn.dst Runs.bounded_log Runs.bounded)
                               6 (Some Conn.ErrFull) Runs.bounded_log))
    by (vm_compute; reflexivity).
  split; [exact H|].
  exact (count_is_sum_of_write_counts _ _ _ _ _ _ _ _ _ _ _ _ H).
Defined.

Lemma clean_return_means_end_of_input_witness :
  OneWayLinkSpec 2 None Conn.src Conn.dst (Some (make 4)) None
                 (Conn.feeding (Conn.bytes "abc"))
  = Some (Finished (replay Conn.src Conn.dst Runs.abc_log (Conn.feeding (Conn.bytes "abc")))
                   3 None Runs.abc_log)
  /\ total_written Runs.abc_log = total_read Runs.abc_log
  /\ 3 = wrap64 (total_read Runs.abc_log).
Proof.
  assert (H : OneWayLinkSpec 2 None Conn.src Conn.dst (Some (make 4)) None
                             (Conn.feeding (Conn.bytes "abc"))
              = Some (Finished (replay Conn.src Conn.dst Runs.abc_log
                                       (Conn.feeding (Conn.bytes "abc")))
                               3 None Runs.abc_log))
    by (vm_compute; reflexivity).
  split; [exact H|].
  exact (proj2 (clean_return_means_end_of_input _ _ _ _ _ _ _ _ _ _ _ H)).
Defined.

Lemma error_returned_is_last_error_witness :
  OneWayLinkSpec 5 None Conn.src Conn.dst (Some (make 4)) None Runs.bounded
  = Some (Finished (replay Conn.src Conn.dst Runs.bounded_log Runs.bounded)
                   6 (Some Conn.ErrFull) Runs.bounded_log)
  /\ ((exists pre q wn, Runs.bounded_log = pre ++ [EvWrite q wn (Some Conn.ErrFull)])
      \/ (is_EOF Conn.ErrFull = false
          /\ exists pre p d rn, Runs.bounded_log = pre ++ [EvRead p d rn (Some Conn.ErrFull)])
      \/ (is_EOF Conn.ErrFull = false
          /\ exists pre p d rn q,
              Runs.bounded_log
              = pre ++ [EvRead p d rn (Some Conn.ErrFull); EvWrite q rn None])
      \/ (Conn.ErrFull = ErrShortWrite
          /\ exists pre p d rn er q wn,
              Runs.bounded_log = pre ++ [EvRead p d rn er; EvWrite q wn None]
              /\ wn <> rn)).
Proof.
  assert (H : OneWayLinkSpec 5 None Conn.src Conn.dst (Some (make 4)) None Runs.bounded
              = Some (Finished (replay Conn.src Conn.dst Runs.bounded_log Runs.bounded)
                               6 (Some Conn.ErrFull) Runs.bounded_log))
    by (vm_compute; reflexivity).
  split; [exact H|].
  exact (error_returned_is_last_error _ _ _ _ _ _ _ _ _ _ _ _ H).
Defined.

Lemma read_error_ends_the_copy_witness :
  log_after 1 None Conn.src Conn.dst (Some (make 4)) None Runs.source_closed
  = [] ++ EvRead (make 4) [] 0 (Some Conn.ErrClosed) :: []
  /\ OneWayLinkSpec 1 None Conn.src Conn.dst (Some (make 4)) None Runs.source_closed
     = Some (Finished
               (replay Conn.src Conn.dst ([] ++ [EvRead (make 4) [] 0 (Some Conn.ErrClosed)])
                       Runs.source_closed)
               (wrap64 (total_written []))
               (if is_EOF Conn.ErrClosed then None else Some Conn.ErrClosed)
               ([] ++ [EvRead (make 4) [] 0 (Some Conn.ErrClosed)])).
Proof.
  assert (H : log_after 1 None Conn.src Conn.dst (Some (make 4)) None Runs.source_closed
              = [] ++ EvRead (make 4) [] 0 (Some Conn.ErrClosed) :: [])
    by (vm_compute; reflexivity).
  split; [exact H|].
  apply (proj2 (read_error_ends_the_copy _ _ _ _ _ _ _ _ _ _ _ _ _ _ H ltac:(lia)) 1%nat).
  lia.
Defined.

Lemma read_error_after_its_data_witness :
  0 < 2 <= Z.of_nat (cap (make 4))
  /\ exists wn ew,
      [EvWrite (Conn.bytes "ab") 2 None]
      = [EvWrite (apply_cb None (firstn (Z.to_nat 2) (arr (store (Conn.bytes "ab") (make 4)))))
                 wn ew]
      /\ forall fuel, (1 <= fuel)%nat ->
           OneWayLinkSpec fuel None Odd.failing Odd.discard (Some (make 4)) None tt
           = Some (Finished
                     (replay Odd.failing Odd.discard
                             ([] ++ EvRead (make 4) (Conn.bytes "ab") 2 (Some Odd.ErrReset)
                                 :: [EvWrite (Conn.bytes "ab") 2 None]) tt)
                     (add64 (wrap64 (total_written [])) (Z.max 0 wn))
                     match ew with
                     | Some e' => Some e'
                     | None => if wn =? 2 then Some Odd.ErrReset else Some ErrShortWrite
                     end
                     ([] ++ EvRead (make 4) (Conn.bytes "ab") 2 (Some Odd.ErrReset)
                         :: [EvWrite (Conn.bytes "ab") 2 None])).
Proof.
  assert (Hrn : 0 < 2 <= Z.of_nat (cap (make 4))) by (rewrite cap_make; lia).
  split; [exact Hrn|].
  apply (read_error_after_its_data unit None Odd.failing Odd.discard None (Some (make 4))
           tt 1 [] [EvWrite (Conn.bytes "ab") 2 None] (make 4) (Conn.bytes "ab") 2
           Odd.ErrReset).
  - vm_compute. reflexivity.
  - exact Hrn.
  - reflexivity.
Defined.

Lemma short_write_of_same_length_chunk_witness :
  3 <> Z.of_nat (length (Conn.bytes "hell"))
  /\ OneWayLinkSpec 1 None Conn.src Conn.dst (Some (make 4)) None
                    (Conn.feeding_limited (Conn.bytes "hello world") 3)
     = Some (Finished
               (replay Conn.src Conn.dst
                       ([] ++ [EvRead (make 4) (Conn.bytes "hell") 4 None;
                               EvWrite (Conn.bytes "hell") 3 None])
                       (Conn.feeding_limited (Conn.bytes "hello world") 3))
               (add64 (wrap64 (total_written [])) (Z.max 0 3))
               (Some ErrShortWrite)
               ([] ++ [EvRead (make 4) (Conn.bytes "hell") 4 None;
                       EvWrite (Conn.bytes "hell") 3 None])).
Proof.
  assert (Hwn : 3 <> Z.of_nat (length (Conn.bytes "hell"))) by (vm_compute; discriminate).
  split; [exact Hwn|].
  apply (proj2 (short_write_of_same_length_chunk Conn.world None Conn.src Conn.dst None
                  (Some (make 4)) (Conn.feeding_limited (Conn.bytes "hello world") 3) 1
                  [] [] (make 4) (Conn.bytes "hell") 4 None (Conn.bytes "hell") 3
                  ltac:(vm_compute; reflexivity) ltac:(vm_compute; reflexivity) Hwn)
               1%nat).
  lia.
Defined.

Lemma read_beyond_capacity_panics_witness :
  Z.of_nat (cap (make 4)) < 5
  /\ OneWayLinkSpec 3 None Odd.overrun Odd.discard (Some (make 4)) None tt
     = Some (Crashed (replay Odd.overrun Odd.discard ([] ++ [EvRead (make 4) [] 5 None]) tt)
                     ([] ++ [EvRead (make 4) [] 5 None])).
Proof.
  assert (Hrn : Z.of_nat (cap (make 4)) < 5) by (rewrite cap_make; lia).
  split; [exact Hrn|].
  apply (proj2 (read_beyond_capacity_panics unit None Odd.overrun Odd.discard None
                  (Some (make 4)) tt 1 [] [] (make 4) [] 5 None
                  ltac:(vm_compute; reflexivity) Hrn)
               3%nat).
  lia.
Defined.

Lemma no_panic_within_capacity_witness :
  cap (make 4) = 4%nat
  /\ forall s' tr,
      OneWayLinkSpec 7 None Conn.src Conn.dst (Some (make 4)) (Some Conn.double)
                     (Conn.feeding (Conn.bytes "hello world"))
      <> Some (Crashed s' tr).
Proof.
  split; [apply cap_make|].
  apply (no_panic_within_capacity None Conn.src Conn.dst (Some Conn.double) (Some (make 4))).
  intros s p Hl Hc. pose proof (conn_counts s p) as H.
  simpl in Hl, Hc. rewrite cap_make in Hc. lia.
Defined.

Lemma idle_source_spins_witness :
  Runs.ready (Conn.feeding (Conn.bytes "abc"))
  /\ OneWayLinkSpec 40 None Conn.src Conn.dst (Some (make 0)) None
                    (Conn.feeding (Conn.bytes "abc")) = None
  /\ chunks_offered (log_after 40 None Conn.src Conn.dst (Some (make 0)) None
                               (Conn.feeding (Conn.bytes "abc"))) = []
  /\ length (log_after 40 None Conn.src Conn.dst (Some (make 0)) None
                       (Conn.feeding (Conn.bytes "abc"))) = 40%nat.
Proof.
  assert (Hready : Runs.ready (Conn.feeding (Conn.bytes "abc")))
    by (unfold Runs.ready; simpl; split; [reflexivity|discriminate]).
  split; [exact Hready|].
  apply (idle_source_spins None Conn.src Conn.dst None (Some (make 0)) Runs.ready).
  - intros s p Hs Hl _. apply conn_idle; [exact Hs|exact Hl].
  - exact Hready.
Defined.


Lemma relay_returns_with_both_closed_witness :
  TwoWayLinkSpec Conn.caller_assigns_first None Conn.h1 Conn.h2
                 (Some (make 4)) (Some (make 4)) None None
                 (Conn.peer_gone (Conn.bytes "x"))
  = Some (0, 0, None, None)
  /\ Runs.closed1
       (sh_world (sh (exec None Conn.h1 Conn.h2 None None Conn.caller_assigns_first
                           (start (Some (make 4)) (Some (make 4))
                                  (Conn.peer_gone (Conn.bytes "x"))))))
  /\ Runs.closed2
       (sh_world (sh (exec None Conn.h1 Conn.h2 None None Conn.caller_assigns_first
                           (start (Some (make 4)) (Some (make 4))
                                  (Conn.peer_gone (Conn.bytes "x")))))).
Proof.
  assert (H : TwoWayLinkSpec Conn.caller_assigns_first None Conn.h1 Conn.h2
                             (Some (make 4)) (Some (make 4)) None None
                             (Conn.peer_gone (Conn.bytes "x"))
              = Some (0, 0, None, None))
    by (vm_compute; reflexivity).
  split; [exact H|].
  apply (relay_returns_with_both_closed Conn.world Runs.closed1 Runs.closed2
           Conn.caller_assigns_first None Conn.h1 Conn.h2 (Some (make 4)) (Some (make 4))
           None None (Conn.peer_gone (Conn.bytes "x")) (0, 0, None, None)
           (proj1 conn_closed_lasts) (proj2 conn_closed_lasts)).
  - intros [e1 e2]. reflexivity.
  - intros [e1 e2]. reflexivity.
  - exact H.
Defined.

Lemma relay_closes_nothing_early_witness :
  closing (g_pc (exec None Conn.h1 Conn.h2 None None [Background; Caller; Caller]
                      (start (Some (make 4)) (Some (make 4))
                             (Conn.peer_gone (Conn.bytes "x"))))) = false
  /\ closing (m_pc (exec None Conn.h1 Conn.h2 None None [Background; Caller; Caller]
                         (start (Some (make 4)) (Some (make 4))
                                (Conn.peer_gone (Conn.bytes "x"))))) = false
  /\ Conn.closed_flags
       (sh_world (sh (exec None Conn.h1 Conn.h2 None None [Background; Caller; Caller]
                           (start (Some (make 4)) (Some (make 4))
                                  (Conn.peer_gone (Conn.bytes "x"))))))
     = Conn.closed_flags (Conn.peer_gone (Conn.bytes "x")).
Proof.
  destruct conn_calls_keep_flags as (R1 & R2 & W1 & W2).
  split; [reflexivity|]. split; [reflexivity|].
  apply (relay_closes_nothing_early Conn.world (bool * bool) Conn.closed_flags
           [Background; Caller; Caller] None Conn.h1 Conn.h2 (Some (make 4)) (Some (make 4))
           None None (Conn.peer_gone (Conn.bytes "x")) R1 R2 W1 W2);
    reflexivity.
Defined.
